(** * Document ingestion: text chunking, file validation and the upload handler

    A shallow embedding of

      - [src/app/utils/text-chunker.ts]  ([chunkText], [chunkTextSmart]),
      - the file-processor utilities     ([extractTextFromPDF],
        [getFileExtension], [validateFileType], [validateFileSize]),
      - the ingest route                 ([POST]),
      - the embedding client             ([getEmbeddings], both versions),
      - the upload component             ([validateFile]).

    Conventions.

      - A JavaScript string is the list of its UTF-16 code units; a code
        unit is an [N].  String literals of the source are written with
        [str].
      - A JavaScript number that holds an index, a length or a chunking
        parameter is a [Z].  The parameters are taken to be integers.
      - A [while] loop whose termination is not evident is a [Fixpoint] on
        a fuel argument; the fuel bounds the number of times the loop BODY
        is entered, and [None] means that the fuel did not suffice. *)

From Stdlib Require Import ZArith NArith List Lia Bool.
From Stdlib Require String Ascii DecimalString DecimalZ.
Import ListNotations String.StringSyntax.
Delimit Scope string_scope with string.

Local Open Scope Z_scope.

(** ** JavaScript strings *)

Module JS.

Definition codeunit := N.
Definition jsstring := list codeunit.

(** A source literal (ASCII only) as a JavaScript string. *)
Fixpoint str (s : String.string) : jsstring :=
  match s with
  | String.EmptyString => []
  | String.String c s' => Ascii.N_of_ascii c :: str s'
  end.
Arguments str s%_string.

Definition len (s : jsstring) : Z := Z.of_nat (length s).

Definition eqb (a b : jsstring) : bool :=
  if list_eq_dec N.eq_dec a b then true else false.

(** [String.prototype.substring(start, end)]: both arguments are clamped to
    [0, length] and swapped when [start > end]. *)
Definition clamp (s : jsstring) (i : Z) : Z := Z.max 0 (Z.min i (len s)).

Definition substring (s : jsstring) (a b : Z) : jsstring :=
  let a' := clamp s a in
  let b' := clamp s b in
  let lo := Z.min a' b' in
  let hi := Z.max a' b' in
  firstn (Z.to_nat (hi - lo)) (skipn (Z.to_nat lo) s).

(** WhiteSpace and LineTerminator code points of ECMAScript, the ones that
    [String.prototype.trim] strips.  All of them are in the BMP. *)
Definition is_whitespace (c : codeunit) : bool :=
  (((9 <=? c) && (c <=? 13)) || (c =? 32) || (c =? 160) || (c =? 5760)
   || ((8192 <=? c) && (c <=? 8202)) || (c =? 8232) || (c =? 8233)
   || (c =? 8239) || (c =? 8287) || (c =? 12288) || (c =? 65279))%N.

Fixpoint trimStart (s : jsstring) : jsstring :=
  match s with
  | [] => []
  | c :: s' => if is_whitespace c then trimStart s' else s
  end.

Definition trimEnd (s : jsstring) : jsstring := rev (trimStart (rev s)).

Definition trim (s : jsstring) : jsstring := trimEnd (trimStart s).

Fixpoint startsWith (s pat : jsstring) {struct pat} : bool :=
  match pat, s with
  | [], _ => true
  | _ :: _, [] => false
  | p :: pat', c :: s' => (N.eqb p c) && startsWith s' pat'
  end.

(** [lastIndexOf]: the scan keeps the last position at which [pat] starts;
    [i] is the position of the head of [s], [acc] the answer so far. *)
Fixpoint lastIndexOf_from (s pat : jsstring) (i acc : Z) : Z :=
  match s with
  | [] => if startsWith [] pat then i else acc
  | _ :: s' =>
      lastIndexOf_from s' pat (i + 1) (if startsWith s pat then i else acc)
  end.

Definition lastIndexOf (s pat : jsstring) : Z := lastIndexOf_from s pat 0 (-1).

(** [s.split(sep)] for a one-unit separator; [cur] is the segment being
    read, in reverse.  The result is never empty. *)
Fixpoint split_from (sep : codeunit) (s cur : jsstring) : list jsstring :=
  match s with
  | [] => [rev cur]
  | c :: s' =>
      if N.eqb c sep then rev cur :: split_from sep s' []
      else split_from sep s' (c :: cur)
  end.

Definition split (sep : codeunit) (s : jsstring) : list jsstring :=
  split_from sep s [].

(** [Array.prototype.pop]'s result: the last element, [undefined] ([None])
    on an empty array. *)
Fixpoint pop {A : Type} (l : list A) : option A :=
  match l with
  | [] => None
  | [x] => Some x
  | _ :: l' => pop l'
  end.

(** [a || b] on strings: the empty string is falsy. *)
Definition or_else (a b : jsstring) : jsstring :=
  match a with
  | [] => b
  | _ => a
  end.

(** [Array.prototype.slice(a, b)] for [0 <= a] and [0 <= b]. *)
Definition slice {A : Type} (l : list A) (a b : Z) : list A :=
  let n := Z.of_nat (length l) in
  let a' := Z.min a n in
  let b' := Z.min b n in
  firstn (Z.to_nat (b' - a')) (skipn (Z.to_nat a') l).

(** Number to string, for integers ([String(n)], template literals). *)
Definition numberToString (n : Z) : jsstring :=
  str (DecimalString.NilEmpty.string_of_int (Z.to_int n)).

(** The outcome of awaiting a promise (or of a call that may throw): a
    value, or an [Error] with its message. *)
Inductive Promise (A : Type) : Type :=
| Resolved (a : A)
| Rejected (message : jsstring).
Arguments Resolved {A} a.
Arguments Rejected {A} message.

(** [`${error}`] for an [Error] object. *)
Definition errorToString (message : jsstring) : jsstring :=
  str "Error: " ++ message.

End JS.

Import JS.

(** ** text-chunker.ts *)

(** The loop of [chunkText] (lines 25-41).  [chunks] is the array built so
    far; [push] appends at its end. *)
Fixpoint chunkText_loop (fuel : nat) (text : jsstring)
    (chunkSize overlap startIndex : Z) (chunks : list jsstring)
  : option (list jsstring) :=
  if startIndex <? len text then
    match fuel with
    | O => None
    | S fuel' =>
        let endIndex := Z.min (startIndex + chunkSize) (len text) in
        let chunk := substring text startIndex endIndex in
        let chunks := chunks ++ [chunk] in
        if endIndex =? len text then Some chunks
        else chunkText_loop fuel' text chunkSize overlap
               (startIndex + (chunkSize - overlap)) chunks
    end
  else Some chunks.

(** The guard [!text || text.trim().length === 0]. *)
Definition blank (text : jsstring) : bool :=
  match text with
  | [] => true
  | _ => len (trim text) =? 0
  end.

Definition chunkText (fuel : nat) (text : jsstring) (chunkSize overlap : Z)
  : option (list jsstring) :=
  if blank text then Some []
  else if len text <=? chunkSize then Some [text]
  else chunkText_loop fuel text chunkSize overlap 0 [].

(** [Math.floor(chunkSize * 0.2)].  For an integer [chunkSize] (of
    magnitude below 2^50) the double product is within half an ulp of
    [chunkSize / 5] when 5 divides [chunkSize], and otherwise at least 0.2
    away from the next integer, so the floor is the integer quotient
    rounded down. *)
Definition floor_fifth (chunkSize : Z) : Z := chunkSize / 5.

Definition LF : codeunit := 10%N.

(** Line 76. *)
Definition sentenceEndings : list jsstring :=
  [ str ". "; str "." ++ [LF]; str "! "; str "!" ++ [LF];
    str "? "; str "?" ++ [LF]; [LF; LF] ].

(** One turn of the [for ... of sentenceEndings] loop (lines 80-83): the
    position [pos] at which the marker starts is compared with
    [lastBoundary], which after the first hit holds a position just AFTER
    a marker. *)
Definition boundary_step (searchText : jsstring) (lastBoundary : Z)
    (ending : jsstring) : Z :=
  let pos := lastIndexOf searchText ending in
  if pos >? lastBoundary then pos + len ending else lastBoundary.

(** Lines 77-84. *)
Definition findBoundary (searchText : jsstring) : Z :=
  fold_left (boundary_step searchText) sentenceEndings (-1).

(** Lines 67-90: the end index of the chunk that starts at [startIndex]. *)
Definition smartEnd (text : jsstring) (chunkSize startIndex : Z) : Z :=
  let endIndex := Z.min (startIndex + chunkSize) (len text) in
  if endIndex <? len text then
    let searchStart := endIndex - floor_fifth chunkSize in
    let searchText := substring text searchStart endIndex in
    let lastBoundary := findBoundary searchText in
    if lastBoundary >? 0 then searchStart + lastBoundary else endIndex
  else endIndex.

(** The loop of [chunkTextSmart] (lines 66-102). *)
Fixpoint chunkTextSmart_loop (fuel : nat) (text : jsstring)
    (chunkSize overlap startIndex : Z) (chunks : list jsstring)
  : option (list jsstring) :=
  if startIndex <? len text then
    match fuel with
    | O => None
    | S fuel' =>
        let endIndex := smartEnd text chunkSize startIndex in
        let chunk := trim (substring text startIndex endIndex) in
        let chunks := if len chunk >? 0 then chunks ++ [chunk] else chunks in
        if endIndex =? len text then Some chunks
        else chunkTextSmart_loop fuel' text chunkSize overlap
               (endIndex - overlap) chunks
    end
  else Some chunks.

Definition chunkTextSmart (fuel : nat) (text : jsstring)
    (chunkSize overlap : Z) : option (list jsstring) :=
  if blank text then Some []
  else if len text <=? chunkSize then Some [text]
  else chunkTextSmart_loop fuel text chunkSize overlap 0 [].

(** *** The boundary rule in the words of the specification

    "For each marker, find its last occurrence inside the search window;
    track the occurrence (converted to an absolute offset, positioned just
    after the marker) that is furthest to the right among all markers
    found."  [spec_rightmostBoundary] is that offset relative to the
    window, [-1] when no marker occurs. *)
Definition spec_boundary_step (searchText : jsstring) (best : Z)
    (ending : jsstring) : Z :=
  let pos := lastIndexOf searchText ending in
  if pos <? 0 then best else Z.max best (pos + len ending).

Definition spec_rightmostBoundary (searchText : jsstring) : Z :=
  fold_left (spec_boundary_step searchText) sentenceEndings (-1).

Definition spec_smartEnd (text : jsstring) (chunkSize startIndex : Z) : Z :=
  let endIndex := Z.min (startIndex + chunkSize) (len text) in
  if endIndex <? len text then
    let searchStart := endIndex - floor_fifth chunkSize in
    let searchText := substring text searchStart endIndex in
    let best := spec_rightmostBoundary searchText in
    if best <? 0 then endIndex else searchStart + best
  else endIndex.

(** ** file-processor *)

Section FileProcessor.

Variable Buffer : Type.

(** [String.prototype.toLowerCase], the Unicode lower-case mapping. *)
Variable toLowerCase : jsstring -> jsstring.

(** [buffer.toString('utf-8')]. *)
Variable toString_utf8 : Buffer -> jsstring.

Definition pdf_unavailable : jsstring :=
  str "PDF support is temporarily unavailable. Please upload TXT or MD files instead.".

Definition extractTextFromPDF (buffer : Buffer) : Promise jsstring :=
  Rejected pdf_unavailable.

Definition extractTextFromText (buffer : Buffer) : jsstring :=
  toString_utf8 buffer.

Definition validateFileSize (size maxSizeMB : Z) : bool :=
  let maxSizeBytes := maxSizeMB * 1024 * 1024 in
  size <=? maxSizeBytes.

Definition DOT : codeunit := 46%N.

(** [filename.split('.').pop()?.toLowerCase() || ''] *)
Definition getFileExtension (filename : jsstring) : jsstring :=
  match pop (split DOT filename) with
  | Some last => or_else (toLowerCase last) []
  | None => []
  end.

Definition allowedExtensions : list jsstring := [str "txt"; str "md"].

Definition includes (l : list jsstring) (x : jsstring) : bool :=
  existsb (JS.eqb x) l.

Definition validateFileType (filename : jsstring) : bool :=
  let extension := getFileExtension filename in
  includes allowedExtensions extension.

End FileProcessor.

Arguments extractTextFromPDF {Buffer} buffer.
Arguments extractTextFromText {Buffer} toString_utf8 buffer.

(** The extension in the words of the specification: "the text after the
    last dot".  [None] when the file name has no dot. *)
Fixpoint spec_after_last_dot (filename : jsstring) : option jsstring :=
  match filename with
  | [] => None
  | c :: rest =>
      match spec_after_last_dot rest with
      | Some e => Some e
      | None => if N.eqb c DOT then Some rest else None
      end
  end.

(** ** The ingest route *)

Section Route.

Variable Buffer : Type.
Variable Embedding : Type.
Variable toLowerCase : jsstring -> jsstring.
Variable toString_utf8 : Buffer -> jsstring.

(** [getEmbeddings(chunk)], awaited. *)
Variable getEmbeddings : jsstring -> Promise Embedding.

(** [Date.now()] and [new Date().toISOString()] as read while the record
    of the chunk at [index] is built. *)
Variable Date_now : Z -> Z.
Variable Date_toISOString : Z -> jsstring.

(** [new Pinecone()]: the client, or the error its constructor throws. *)
Variable new_Pinecone : Promise unit.

(** [process.env.PINECONE_INDEX]. *)
Variable PINECONE_INDEX : option jsstring.

Record FormidableFile := {
  originalFilename : jsstring;
  mimetype : jsstring;
  size : Z;
  buffer : Buffer }.

Record Metadata := {
  text : jsstring;
  chunk : jsstring;
  fileName : jsstring;
  fileType : jsstring;
  chunkIndex : Z;
  totalChunks : Z;
  namespace : jsstring;
  uploadedAt : jsstring }.

Record Vector := {
  id : jsstring;
  values : Embedding;
  metadata : Metadata }.

(** One call [index.namespace(target).upsert(batch)]. *)
Record UpsertCall := {
  target : jsstring;
  batch : list Vector }.

(** What the vector store answers to an upsert. *)
Variable upsert : UpsertCall -> Promise unit.

Inductive Body :=
| ErrorBody (error : jsstring)
| SuccessBody (message fileName : jsstring) (chunks : Z)
    (namespace : jsstring).

Record Response := {
  status : Z;
  body : Body }.

(** [Promise.all(chunks.map(getEmbeddings))]; of several rejections the
    model reports the one of the leftmost chunk. *)
Fixpoint Promise_all (chunks : list jsstring) : Promise (list Embedding) :=
  match chunks with
  | [] => Resolved []
  | c :: rest =>
      match getEmbeddings c with
      | Rejected m => Rejected m
      | Resolved e =>
          match Promise_all rest with
          | Rejected m => Rejected m
          | Resolved es => Resolved (e :: es)
          end
      end
  end.

(** Lines 316-329, the record of the chunk at [index]. *)
Definition makeVector (namespace : jsstring) (file : FormidableFile)
    (fileExtension : jsstring) (total : Z) (index : Z) (chunk : jsstring)
    (embedding : Embedding) : Vector :=
  {| id := or_else namespace (str "default") ++ str "-"
           ++ or_else (originalFilename file) (str "file") ++ str "-"
           ++ numberToString (Date_now index) ++ str "-"
           ++ numberToString index;
     values := embedding;
     metadata :=
       {| text := chunk;
          chunk := chunk;
          fileName := or_else (originalFilename file) (str "unknown");
          fileType := fileExtension;
          chunkIndex := index;
          totalChunks := total;
          namespace := or_else namespace (str "default");
          uploadedAt := Date_toISOString index |} |}.

Fixpoint makeVectors_from (namespace : jsstring) (file : FormidableFile)
    (fileExtension : jsstring) (total : Z) (index : Z)
    (chunks : list jsstring) (embeddings : list Embedding) : list Vector :=
  match chunks, embeddings with
  | c :: chunks', e :: embeddings' =>
      makeVector namespace file fileExtension total index c e
      :: makeVectors_from namespace file fileExtension total (index + 1)
           chunks' embeddings'
  | _, _ => []
  end.

Definition batchSize : Z := 100.

(** Lines 346-349.  The result is the error of the first upsert that is
    rejected, if any, and the calls made, oldest first. *)
Fixpoint upsert_loop (fuel : nat) (namespace : jsstring)
    (vectors : list Vector) (i : Z) (calls : list UpsertCall)
  : option (Promise unit * list UpsertCall) :=
  if i <? Z.of_nat (length vectors) then
    match fuel with
    | O => None
    | S fuel' =>
        let call := {| target := or_else namespace [];
                       batch := slice vectors i (i + batchSize) |} in
        match upsert call with
        | Rejected m => Some (Rejected m, calls ++ [call])
        | Resolved _ =>
            upsert_loop fuel' namespace vectors (i + batchSize)
              (calls ++ [call])
        end
    end
  else Some (Resolved tt, calls).

Definition json (status : Z) (error : jsstring) : Response :=
  {| status := status; body := ErrorBody error |}.

(** The [catch] clause of [POST]. *)
Definition caught (message : jsstring) : Response :=
  json 500 (str "Failed to process file: " ++ errorToString message).

(** [POST], from the parsed form data on: [files] and the [namespace]
    field ([None] when the form has none).  The result is the response
    and the upsert calls made. *)
Definition POST (fuel : nat) (files : list FormidableFile)
    (fields_namespace : option jsstring)
  : option (Response * list UpsertCall) :=
  match files with
  | [] => Some (json 400 (str "No file uploaded"), [])
  | file :: _ =>
    let namespace :=
      match fields_namespace with
      | Some ns => or_else ns []
      | None => []
      end in
    match originalFilename file with
    | [] => Some (json 400 (str "Invalid file"), [])
    | _ =>
    if negb (validateFileType toLowerCase (originalFilename file)) then
      Some (json 400
        (str "Invalid file type. Only PDF, TXT, and MD files are allowed."),
        [])
    else if negb (validateFileSize (size file) 4) then
      Some (json 400 (str "File size exceeds 4MB limit"), [])
    else
    let fileExtension :=
      getFileExtension toLowerCase (originalFilename file) in
    let extracted :=
      if JS.eqb fileExtension (str "pdf")
      then extractTextFromPDF (buffer file)
      else Resolved (extractTextFromText toString_utf8 (buffer file)) in
    match extracted with
    | Rejected m => Some (caught m, [])
    | Resolved text =>
    if blank text then
      Some (json 400 (str "No text content found in file"), [])
    else
    match chunkTextSmart fuel text 1000 200 with
    | None => None
    | Some chunks =>
    if Z.of_nat (length chunks) =? 0 then
      Some (json 500 (str "Failed to process file content"), [])
    else
    match Promise_all chunks with
    | Rejected m => Some (caught m, [])
    | Resolved embeddings =>
    let vectors :=
      makeVectors_from namespace file fileExtension
        (Z.of_nat (length chunks)) 0 chunks embeddings in
    match new_Pinecone with
    | Rejected m => Some (caught m, [])
    | Resolved _ =>
    let indexName :=
      match PINECONE_INDEX with
      | Some n => or_else n []
      | None => []
      end in
    match indexName with
    | [] => Some (json 500 (str "Pinecone index not configured"), [])
    | _ =>
    match upsert_loop fuel namespace vectors 0 [] with
    | None => None
    | Some (Rejected m, calls) => Some (caught m, calls)
    | Some (Resolved _, calls) =>
        Some ({| status := 200;
                 body := SuccessBody (str "File processed successfully")
                           (originalFilename file)
                           (Z.of_nat (length chunks)) namespace |},
              calls)
    end end end end end end end
  end.

End Route.

Arguments originalFilename {Buffer} f.
Arguments size {Buffer} f.
Arguments buffer {Buffer} f.
Arguments id {Embedding} v.
Arguments values {Embedding} v.
Arguments metadata {Embedding} v.
Arguments target {Embedding} u.
Arguments batch {Embedding} u.
Arguments Promise_all {Embedding} getEmbeddings chunks.
Arguments makeVector {Buffer Embedding}.
Arguments makeVectors_from {Buffer Embedding}.
Arguments upsert_loop {Embedding}.
Arguments POST {Buffer Embedding}.

(** ** embeddings *)

Definition SPACE : codeunit := 32%N.

(** [input.replace(/\n/g, ' ')] *)
Definition replaceNewlines (input : jsstring) : jsstring :=
  map (fun c => if N.eqb c LF then SPACE else c) input.

Section Embeddings.

Variable Embedding : Type.

(** The argument of [openai.createEmbedding]. *)
Record EmbeddingRequest := {
  model : jsstring;
  input : jsstring;
  dimensions : option Z }.

(** An element of [result.data]. *)
Record EmbeddingItem := {
  embedding : Embedding }.

(** The parsed response.  [data] is [None] when the field is missing,
    falsy or not an array; [stringified] is [JSON.stringify(result)]. *)
Record EmbeddingResult := {
  data : option (list EmbeddingItem);
  stringified : jsstring }.

(** [openai.createEmbedding(request)] then [response.json()], awaited; a
    rejection carries the text [`${e}`] of what was thrown. *)
Variable createEmbedding : EmbeddingRequest -> Promise EmbeddingResult.

(** [getEmbeddings] of the current client (model [text-embedding-3-small],
    512 dimensions).  The [throw] inside the [try] block is caught by the
    [catch] of the same function. *)
Definition getEmbeddings (input : jsstring) : Promise Embedding :=
  match createEmbedding {| model := str "text-embedding-3-small";
                           input := replaceNewlines input;
                           dimensions := Some 512 |} with
  | Rejected e =>
      Rejected (str "Error calling OpenAI embedding API: " ++ e)
  | Resolved result =>
      match data result with
      | Some (first :: _) => Resolved (embedding first)
      | _ =>
          Rejected (str "Error calling OpenAI embedding API: "
                    ++ errorToString (str "Invalid response from OpenAI API: "
                                      ++ stringified result))
      end
  end.

(** [getEmbeddings] of the older client (model [text-embedding-ada-002]). *)
Definition getEmbeddings_ada002 (input : jsstring) : Promise Embedding :=
  match createEmbedding {| model := str "text-embedding-ada-002";
                           input := replaceNewlines input;
                           dimensions := None |} with
  | Rejected e =>
      Rejected (str "Error calling OpenAI embedding API: " ++ e)
  | Resolved result =>
      match data result with
      | Some (first :: _) => Resolved (embedding first)
      | _ =>
          Rejected (str "Error calling OpenAI embedding API: "
                    ++ errorToString (str "Invalid response from OpenAI API: "
                                      ++ stringified result))
      end
  end.

End Embeddings.

Arguments embedding {Embedding} e.
Arguments data {Embedding} e.
Arguments stringified {Embedding} e.
Arguments getEmbeddings {Embedding} createEmbedding input.
Arguments getEmbeddings_ada002 {Embedding} createEmbedding input.

(** ** FileUpload: the check before the upload *)

(** [validateFile] of the upload component, on the name, the MIME type and
    the size of the [File]: [None] is [null], [Some] an error message. *)
Definition validateFile (toLowerCase : jsstring -> jsstring)
    (name type : jsstring) (size : Z) : option jsstring :=
  let allowedTypes := [str "text/plain"; str "text/markdown"] in
  let allowedExtensions := [str ".txt"; str ".md"] in
  let fileExtension :=
    str "." ++ match pop (split DOT name) with
               | Some last => toLowerCase last
               | None => str "undefined"
               end in
  if negb (includes allowedTypes type)
     && negb (includes allowedExtensions fileExtension)
  then Some (str "Invalid file type. Only TXT and MD files are supported (PDF temporarily unavailable).")
  else
    let maxSize := 4 * 1024 * 1024 in
    if size >? maxSize then Some (str "File size exceeds 4MB limit.")
    else None.

(** ** Notions used in the statements *)

Definition ceil_div (a b : Z) : Z := (a + b - 1) / b.

(** [ceil(text.length / (chunkSize - overlap))] as a number of loop turns. *)
Definition iterations_bound (text : jsstring) (chunkSize overlap : Z) : nat :=
  Z.to_nat (ceil_div (len text) (chunkSize - overlap)).

(** The spec's reconstruction: the chunks concatenated, the first [overlap]
    units of every chunk but the first removed. *)
Definition dedup_concat (overlap : Z) (chunks : list jsstring) : jsstring :=
  match chunks with
  | [] => []
  | first :: rest => first ++ concat (map (skipn (Z.to_nat overlap)) rest)
  end.

(** The chunk of index [k] of the fixed-width chunker, by its range: it
    starts at [k * step]. *)
Definition chunk_at (text : jsstring) (chunkSize step : Z) (k : nat)
  : jsstring :=
  substring text (Z.of_nat k * step)
    (Z.min (Z.of_nat k * step + chunkSize) (len text)).

(** The number of chunks of a text longer than [chunkSize]. *)
Definition chunk_count (text : jsstring) (chunkSize overlap : Z) : nat :=
  S (Z.to_nat (ceil_div (len text - chunkSize) (chunkSize - overlap))).

(** What the loop of [chunkTextSmart] does to a chunk before [push]: trim
    it, and drop it when nothing is left. *)
Definition trimmed_nonempty (chunks : list jsstring) : list jsstring :=
  filter (fun chunk => len chunk >? 0) (map trim chunks).

(** The search window of the chunk that starts at [startIndex], when its
    naive end [startIndex + chunkSize] is inside the text (line 73). *)
Definition searchWindow (text : jsstring) (chunkSize startIndex : Z)
  : jsstring :=
  substring text (startIndex + chunkSize - floor_fifth chunkSize)
    (startIndex + chunkSize).

(** What a call of an embedding client owes its caller, given the
    [request] it makes: it resolves exactly when the provider answers with
    a non-empty [data] array, with the embedding of the first element;
    every rejection starts with the client's prefix; and an answer of the
    provider without such an array is reported with two prefixes, that of
    the [throw] and that of the [catch]. *)
Definition embedding_contract {Embedding : Type}
    (createEmbedding : EmbeddingRequest -> Promise (EmbeddingResult Embedding))
    (request : EmbeddingRequest) (call : Promise Embedding) : Prop :=
  (forall e, call = Resolved e <->
     exists result first rest,
       createEmbedding request = Resolved result
       /\ data result = Some (first :: rest)
       /\ e = embedding first)
  /\ (forall m, call = Rejected m ->
        startsWith m (str "Error calling OpenAI embedding API: ") = true
        /\ (forall result, createEmbedding request = Resolved result ->
              m = str "Error calling OpenAI embedding API: "
                  ++ str "Error: Invalid response from OpenAI API: "
                  ++ stringified result)).

(** The separator of the parts of a record id. *)
Definition DASH : codeunit := 45%N.

(** [pat] occurs in [s]: [s = before ++ pat ++ after]. *)
Definition occurs (pat s : jsstring) : Prop :=
  exists before after, s = before ++ pat ++ after.

(** How the loop of the code ([lastBoundary]) and the rule of the
    specification ([best]) stand to each other: both have found nothing,
    or the code is at most 2 units to the left of the rightmost boundary. *)
Definition near (searchText : jsstring) (lastBoundary best : Z) : Prop :=
  (lastBoundary = -1 /\ best = -1)
  \/ (2 <= lastBoundary <= best /\ best <= lastBoundary + 2
      /\ best <= len searchText).

(** A chunk holds a unit that is not white space. *)
Definition visible (chunk : jsstring) : Prop :=
  exists c, In c chunk /\ is_whitespace c = false.

(** [toLowerCase] on ASCII: [A]-[Z] to [a]-[z], nothing else moves. *)
Definition ascii_lower (c : codeunit) : codeunit :=
  if ((65 <=? c) && (c <=? 90))%N then (c + 32)%N else c.

(** ** Sample inputs *)

(** A text whose first paragraph ends right at the naive cut. *)
Definition paragraph_text : jsstring :=
  str "First paragraph." ++ [LF; LF] ++ str "Second paragraph goes on.".

(** A text whose second chunk is all white space. *)
Definition gap_text : jsstring :=
  str "abcdefgh. " ++ str "          " ++ str "tail".

(** A run of the route.

    A 11-unit text file uploaded with an empty namespace field; every
    collaborator succeeds. *)
Definition demo_file : FormidableFile jsstring :=
  {| originalFilename := str "notes.txt"; mimetype := str "text/plain";
     size := 11; buffer := str "hello world" |}.

Definition demo_POST (fields_namespace : option jsstring)
  : option (Response * list (UpsertCall unit)) :=
  POST (map ascii_lower) (fun b => b)
    (fun _ => Resolved tt) (fun _ => 0)
    (fun _ => str "1970-01-01T00:00:00.000Z")
    (Resolved tt) (Some (str "docs")) (fun _ => Resolved tt)
    11 [demo_file] fields_namespace.

Definition demo_vector : Vector unit :=
  {| id := str "default-notes.txt-0-0";
     values := tt;
     metadata :=
       {| text := str "hello world";
          chunk := str "hello world";
          fileName := str "notes.txt";
          fileType := str "txt";
          chunkIndex := 0;
          totalChunks := 1;
          namespace := str "default";
          uploadedAt := str "1970-01-01T00:00:00.000Z" |} |}.

Definition demo_response : Response :=
  {| status := 200;
     body := SuccessBody (str "File processed successfully")
               (str "notes.txt") 1 [] |}.

Definition demo_calls : list (UpsertCall unit) :=
  [ {| target := []; batch := [demo_vector] |} ].

(** The same upload with the namespace field ["team"]. *)
Definition demo_named_result : Response * list (UpsertCall unit) :=
  Eval vm_compute in
    match demo_POST (Some (str "team")) with
    | Some result => result
    | None => ({| status := 0; body := ErrorBody [] |}, [])
    end.

(** A file with the extension [pdf]. *)
Definition demo_pdf : FormidableFile jsstring :=
  {| originalFilename := str "paper.pdf"; mimetype := str "application/pdf";
     size := 11; buffer := str "%PDF-1.7" |}.

(** * Properties *)

(** ** Strings *)

Module JSFacts.

Lemma len_nonneg (s : jsstring) : 0 <= len s.
Proof. unfold len; lia. Qed.

Lemma len_nil_iff (s : jsstring) : len s = 0 <-> s = [].
Proof.
  unfold len; split; intros H.
  - destruct s; [reflexivity | simpl in H; lia].
  - subst; reflexivity.
Qed.

Lemma len_app (a b : jsstring) : len (a ++ b) = len a + len b.
Proof. unfold len; rewrite length_app; lia. Qed.

Lemma eqb_eq (a b : jsstring) : JS.eqb a b = true <-> a = b.
Proof.
  unfold JS.eqb; destruct (list_eq_dec N.eq_dec a b); split;
    intros; congruence.
Qed.

(** Inside its bounds [substring] is a [firstn] of a [skipn]. *)
Lemma substring_range (s : jsstring) (a b : Z) :
  0 <= a <= b -> b <= len s ->
  substring s a b = firstn (Z.to_nat (b - a)) (skipn (Z.to_nat a) s).
Proof.
  intros Hab Hb; unfold substring, clamp.
  replace (Z.max 0 (Z.min a (len s))) with a by lia.
  replace (Z.max 0 (Z.min b (len s))) with b by lia.
  replace (Z.min a b) with a by lia.
  replace (Z.max a b) with b by lia.
  reflexivity.
Qed.

Lemma substring_len (s : jsstring) (a b : Z) :
  0 <= a <= b -> b <= len s -> len (substring s a b) = b - a.
Proof.
  intros Hab Hb; rewrite substring_range by assumption.
  unfold len in *; rewrite length_firstn, length_skipn; lia.
Qed.

Lemma substring_all (s : jsstring) : substring s 0 (len s) = s.
Proof.
  rewrite substring_range by (pose proof (len_nonneg s); lia).
  simpl; unfold len; rewrite Z.sub_0_r, Nat2Z.id; apply firstn_all.
Qed.

Lemma substring_to_end (s : jsstring) (a : Z) :
  0 <= a <= len s -> substring s a (len s) = skipn (Z.to_nat a) s.
Proof.
  intros Ha; rewrite substring_range by lia.
  apply firstn_all2; unfold len in *; rewrite length_skipn; lia.
Qed.

Lemma substring_from_start (s : jsstring) (b : Z) :
  0 <= b <= len s -> substring s 0 b = firstn (Z.to_nat b) s.
Proof.
  intros Hb; rewrite substring_range by lia.
  rewrite Z.sub_0_r; reflexivity.
Qed.

(** Dropping [k] units of a substring moves its left end. *)
Lemma substring_skipn (s : jsstring) (a b k : Z) :
  0 <= a -> 0 <= k -> a + k <= b -> b <= len s ->
  skipn (Z.to_nat k) (substring s a b) = substring s (a + k) b.
Proof.
  intros Ha Hk Hab Hb.
  rewrite !substring_range by lia.
  rewrite skipn_firstn_comm, skipn_skipn.
  f_equal; [lia | f_equal; lia].
Qed.

(** A substring followed by the rest of the string. *)
Lemma substring_app_rest (s : jsstring) (a b : Z) :
  0 <= a <= b -> b <= len s ->
  substring s a b ++ skipn (Z.to_nat b) s = skipn (Z.to_nat a) s.
Proof.
  intros Hab Hb; rewrite substring_range by lia.
  replace (Z.to_nat b) with (Z.to_nat (b - a) + Z.to_nat a)%nat by lia.
  rewrite <- skipn_skipn. apply firstn_skipn.
Qed.

(** *** Trimming *)

Lemma trimStart_head (s r : jsstring) (c : codeunit) :
  trimStart s = c :: r -> is_whitespace c = false.
Proof.
  induction s as [|d s IH]; simpl; [discriminate|].
  destruct (is_whitespace d) eqn:E; [exact IH|].
  intros H; injection H as -> _; exact E.
Qed.

Lemma trimStart_nil_iff (s : jsstring) :
  trimStart s = [] <-> forallb is_whitespace s = true.
Proof.
  induction s as [|d s IH]; simpl; [tauto|].
  destruct (is_whitespace d); simpl; [exact IH|].
  split; discriminate.
Qed.

Lemma trimStart_suffix (s : jsstring) :
  exists p, s = p ++ trimStart s /\ forallb is_whitespace p = true.
Proof.
  induction s as [|d s [p [Hs Hp]]]; simpl.
  - exists []; split; reflexivity.
  - destruct (is_whitespace d) eqn:E.
    + exists (d :: p); simpl; rewrite E, Hp; split; [congruence|reflexivity].
    + exists []; split; reflexivity.
Qed.

Lemma forallb_rev (f : codeunit -> bool) (s : jsstring) :
  forallb f (rev s) = forallb f s.
Proof.
  induction s as [|d s IH]; simpl; [reflexivity|].
  rewrite forallb_app, IH; simpl; rewrite andb_true_r; apply andb_comm.
Qed.

Lemma rev_nil_iff (s : jsstring) : rev s = [] <-> s = [].
Proof.
  split; intros H; [|subst; reflexivity].
  rewrite <- (rev_involutive s), H; reflexivity.
Qed.

Lemma trim_nil_iff (s : jsstring) :
  trim s = [] <-> forallb is_whitespace s = true.
Proof.
  unfold trim, trimEnd.
  rewrite rev_nil_iff, trimStart_nil_iff, forallb_rev.
  destruct (trimStart_suffix s) as [p [Hs Hp]].
  split; intros H.
  - rewrite Hs, forallb_app, Hp, H; reflexivity.
  - destruct (trimStart s) as [|c r] eqn:E; [reflexivity|].
    apply trimStart_head in E.
    rewrite Hs, forallb_app in H; simpl in H.
    rewrite E, andb_false_r in H; discriminate.
Qed.

(** A non-empty trimmed string holds a unit that is not white space. *)
Lemma trim_nonempty_visible (s : jsstring) :
  trim s <> [] -> exists c, In c (trim s) /\ is_whitespace c = false.
Proof.
  unfold trim, trimEnd; intros H.
  destruct (trimStart (rev (trimStart s))) as [|c r] eqn:E.
  - contradiction H; reflexivity.
  - exists c; split.
    + rewrite <- in_rev; left; reflexivity.
    + exact (trimStart_head _ _ _ E).
Qed.

Lemma blank_true_iff (t : jsstring) :
  blank t = true <-> forallb is_whitespace t = true.
Proof.
  unfold blank; destruct t as [|c t]; [simpl; tauto|].
  rewrite Z.eqb_eq, len_nil_iff; apply trim_nil_iff.
Qed.

Lemma forallb_false_exists (t : jsstring) :
  forallb is_whitespace t = false <->
  exists c, In c t /\ is_whitespace c = false.
Proof.
  induction t as [|d t IH]; simpl.
  - split; [discriminate | intros [c [[] _]]].
  - rewrite andb_false_iff, IH; split.
    + intros [E | [c [Hin E]]]; [exists d | exists c]; tauto.
    + intros [c [[-> | Hin] E]]; [left; exact E | right; exists c; tauto].
Qed.

(** The guard of both chunkers lets a text through exactly when it holds
    a unit that is not white space. *)
Lemma blank_false_iff (t : jsstring) :
  blank t = false <-> exists c, In c t /\ is_whitespace c = false.
Proof.
  rewrite <- forallb_false_exists.
  pose proof (blank_true_iff t) as H.
  destruct (blank t), (forallb is_whitespace t); intuition congruence.
Qed.

End JSFacts.

Import JSFacts.

(** ** The fixed-width chunker *)

Section FixedWidth.

Variable text : jsstring.
Variables chunkSize overlap : Z.

Local Abbreviation step := (chunkSize - overlap).

(** One turn of the loop, as an equation. *)
Lemma chunkText_loop_S fuel startIndex chunks :
  startIndex < len text ->
  chunkText_loop (S fuel) text chunkSize overlap startIndex chunks =
  let endIndex := Z.min (startIndex + chunkSize) (len text) in
  let chunks' := chunks ++ [substring text startIndex endIndex] in
  if endIndex =? len text then Some chunks'
  else chunkText_loop fuel text chunkSize overlap (startIndex + step) chunks'.
Proof.
  intros H; simpl.
  destruct (startIndex <? len text) eqn:E; [reflexivity|].
  apply Z.ltb_ge in E; lia.
Qed.

(** A turn that is not the last one ... *)
Lemma chunkText_loop_continue fuel startIndex chunks :
  startIndex < len text -> startIndex + chunkSize < len text ->
  chunkText_loop (S fuel) text chunkSize overlap startIndex chunks =
  chunkText_loop fuel text chunkSize overlap (startIndex + step)
    (chunks ++ [substring text startIndex (startIndex + chunkSize)]).
Proof.
  intros H1 H2; rewrite chunkText_loop_S by assumption; cbv zeta.
  replace (Z.min (startIndex + chunkSize) (len text))
    with (startIndex + chunkSize) by lia.
  destruct (startIndex + chunkSize =? len text) eqn:E; [|reflexivity].
  apply Z.eqb_eq in E; lia.
Qed.

(** ... and the one that reaches the end of the text. *)
Lemma chunkText_loop_last fuel startIndex chunks :
  startIndex < len text -> len text <= startIndex + chunkSize ->
  chunkText_loop (S fuel) text chunkSize overlap startIndex chunks =
  Some (chunks ++ [substring text startIndex (len text)]).
Proof.
  intros H1 H2; rewrite chunkText_loop_S by assumption; cbv zeta.
  replace (Z.min (startIndex + chunkSize) (len text))
    with (len text) by lia.
  rewrite Z.eqb_refl; reflexivity.
Qed.

Lemma chunkText_loop_exit fuel startIndex chunks :
  len text <= startIndex ->
  chunkText_loop fuel text chunkSize overlap startIndex chunks = Some chunks.
Proof.
  intros H; destruct fuel; simpl;
    (destruct (startIndex <? len text) eqn:E;
     [apply Z.ltb_lt in E; lia | reflexivity]).
Qed.

(** More fuel does not change a result. *)
Lemma chunkText_loop_mono fuel : forall fuel' startIndex chunks res,
  (fuel <= fuel')%nat ->
  chunkText_loop fuel text chunkSize overlap startIndex chunks = Some res ->
  chunkText_loop fuel' text chunkSize overlap startIndex chunks = Some res.
Proof.
  induction fuel as [|fuel IH]; intros fuel' st acc res Hle H.
  - simpl in H. destruct (st <? len text) eqn:E; [discriminate|].
    apply Z.ltb_ge in E. rewrite chunkText_loop_exit; assumption.
  - destruct (Z_lt_ge_dec st (len text)) as [Hlt | Hge].
    + destruct fuel' as [|fuel']; [lia|].
      rewrite chunkText_loop_S in * by assumption.
      cbv zeta in *.
      destruct (Z.min (st + chunkSize) (len text) =? len text);
        [assumption|].
      apply IH; [lia | assumption].
    + rewrite chunkText_loop_exit in * by lia. assumption.
Qed.

(** With a positive step, a cursor whose overlap region ends inside the
    text needs at most [fuel] turns as soon as [fuel] steps cover the
    rest of the text; every turn adds one chunk. *)
Lemma chunkText_loop_terminates fuel : forall startIndex chunks,
  0 <= overlap -> 0 < step ->
  startIndex + overlap < len text ->
  len text - startIndex - overlap <= Z.of_nat fuel * step ->
  exists res,
    chunkText_loop fuel text chunkSize overlap startIndex chunks = Some res
    /\ (length chunks < length res <= length chunks + fuel)%nat.
Proof.
  induction fuel as [|fuel IH]; intros st acc Hov Hstep Hin Hfuel.
  - simpl in Hfuel; lia.
  - rewrite chunkText_loop_S by lia. cbv zeta.
    destruct (Z.min (st + chunkSize) (len text) =? len text) eqn:E.
    + eexists; split; [reflexivity|].
      rewrite length_app; simpl; lia.
    + apply Z.eqb_neq in E.
      destruct fuel as [|fuel].
      * nia.
      * destruct (IH (st + step)
                    (acc ++ [substring text st
                               (Z.min (st + chunkSize) (len text))]))
          as [res [Hres Hlen]]; try assumption.
        -- lia.
        -- nia.
        -- exists res; split; [exact Hres|].
           rewrite length_app in Hlen; simpl in Hlen; lia.
Qed.

(** A step that is not positive never moves the cursor past 0: when the
    text is longer than a chunk the loop runs out of every fuel. *)
Lemma chunkText_loop_diverges fuel : forall startIndex chunks,
  step <= 0 -> 0 < len text -> chunkSize < len text -> startIndex <= 0 ->
  chunkText_loop fuel text chunkSize overlap startIndex chunks = None.
Proof.
  induction fuel as [|fuel IH]; intros st acc Hstep Hpos Hlong Hst.
  - simpl. destruct (st <? len text) eqn:E; [reflexivity|].
    apply Z.ltb_ge in E; lia.
  - rewrite chunkText_loop_S by lia. cbv zeta.
    destruct (Z.min (st + chunkSize) (len text) =? len text) eqn:E.
    + apply Z.eqb_eq in E; lia.
    + apply IH; lia.
Qed.

(** What the loop appends: its chunks, each without its first [overlap]
    units, make up the text from [startIndex + overlap] on; and the
    first of them starts at [startIndex]. *)
Lemma chunkText_loop_covers fuel : forall startIndex chunks res,
  0 <= overlap -> 0 < step ->
  0 <= startIndex -> startIndex + overlap <= len text ->
  chunkText_loop fuel text chunkSize overlap startIndex chunks = Some res ->
  exists new,
    res = chunks ++ new
    /\ concat (map (skipn (Z.to_nat overlap)) new)
       = skipn (Z.to_nat (startIndex + overlap)) text
    /\ (startIndex < len text ->
        exists rest,
          new = substring text startIndex
                  (Z.min (startIndex + chunkSize) (len text)) :: rest).
Proof.
  induction fuel as [|fuel IH]; intros st acc res Hov Hstep Hst Hin H.
  - simpl in H. destruct (st <? len text) eqn:E; [discriminate|].
    apply Z.ltb_ge in E. injection H as <-.
    exists []; rewrite app_nil_r; repeat split; [|lia].
    simpl; symmetry; apply skipn_all2; unfold len in *; lia.
  - destruct (Z_lt_ge_dec st (len text)) as [Hlt | Hge].
    + destruct (Z_lt_ge_dec (st + chunkSize) (len text)) as [Hc | Hl].
      * rewrite chunkText_loop_continue in H by assumption.
        apply IH in H; [|assumption|assumption|lia
                        |lia].
        destruct H as [new [-> [Hcat _]]].
        exists (substring text st (st + chunkSize) :: new).
        rewrite <- app_assoc; repeat split.
        -- simpl. rewrite Hcat.
           rewrite substring_skipn by lia.
           replace (st + step + overlap) with (st + chunkSize)
             by lia.
           apply substring_app_rest; lia.
        -- intros _; exists new.
           replace (Z.min (st + chunkSize) (len text))
             with (st + chunkSize) by lia.
           reflexivity.
      * rewrite chunkText_loop_last in H by lia. injection H as <-.
        exists [substring text st (len text)]; repeat split.
        -- simpl. rewrite app_nil_r.
           rewrite substring_skipn by lia.
           apply substring_to_end; lia.
        -- intros _; exists [].
           replace (Z.min (st + chunkSize) (len text)) with (len text)
             by lia.
           reflexivity.
    + rewrite chunkText_loop_exit in H by lia. injection H as <-.
      exists []; rewrite app_nil_r; repeat split; [|lia].
      simpl; symmetry; apply skipn_all2; unfold len in *; lia.
Qed.

End FixedWidth.

Lemma ceil_div_covers (a b : Z) : 0 < b -> a <= ceil_div a b * b.
Proof.
  intros Hb; unfold ceil_div.
  pose proof (Z.mul_succ_div_gt (a + b - 1) b Hb). nia.
Qed.

Lemma ceil_div_pos (a b : Z) : 0 < b -> 0 < a -> 0 < ceil_div a b.
Proof.
  intros Hb Ha; unfold ceil_div.
  apply Z.div_str_pos; lia.
Qed.

Lemma visible_nonempty (text : jsstring) :
  (exists c, In c text /\ is_whitespace c = false) -> 0 < len text.
Proof.
  intros [c [Hin _]]; destruct text; [destruct Hin|].
  unfold len; simpl; lia.
Qed.

(** From cursor 0 the loop returns within the bound of the specification,
    one chunk a turn. *)
Lemma chunkText_loop_returns (text : jsstring) (chunkSize overlap : Z) :
  0 < chunkSize -> 0 <= overlap < chunkSize -> chunkSize < len text ->
  exists res,
    chunkText_loop (iterations_bound text chunkSize overlap) text
      chunkSize overlap 0 [] = Some res
    /\ (length res <= iterations_bound text chunkSize overlap)%nat.
Proof.
  intros Hc Ho Hlong.
  pose proof (ceil_div_pos (len text) (chunkSize - overlap)) as Hpos.
  pose proof (ceil_div_covers (len text) (chunkSize - overlap)) as Hcov.
  destruct (chunkText_loop_terminates text chunkSize overlap
              (iterations_bound text chunkSize overlap) 0 [])
    as [res [Hres Hlen]]; try lia.
  - unfold iterations_bound; rewrite Z2Nat.id; lia.
  - exists res; split; [exact Hres | simpl in Hlen; lia].
Qed.

(** C2.  With [chunkSize > 0] and [0 <= overlap < chunkSize], [chunkText]
    returns within [ceil(text.length / (chunkSize - overlap))] turns of its
    loop (the fuel counts the turns), and returns at most that many
    chunks. *)
Theorem chunkText_iteration_bound (text : jsstring) (chunkSize overlap : Z) :
  0 < chunkSize -> 0 <= overlap < chunkSize ->
  exists chunks,
    chunkText (iterations_bound text chunkSize overlap) text chunkSize overlap
      = Some chunks
    /\ (length chunks <= iterations_bound text chunkSize overlap)%nat.
Proof.
  intros Hc Ho; unfold chunkText.
  destruct (blank text) eqn:Hb.
  - exists []; split; [reflexivity | simpl; lia].
  - apply blank_false_iff, visible_nonempty in Hb.
    destruct (len text <=? chunkSize) eqn:Hs.
    + exists [text]; split; [reflexivity|].
      pose proof (ceil_div_pos (len text) (chunkSize - overlap)).
      unfold iterations_bound; simpl; lia.
    + apply Z.leb_gt in Hs.
      apply chunkText_loop_returns; assumption.
Qed.

Lemma chunkText_iteration_bound_witness :
  exists chunks,
    chunkText (iterations_bound (str "abcdefghij") 4 1) (str "abcdefghij") 4 1
      = Some chunks
    /\ (length chunks <= iterations_bound (str "abcdefghij") 4 1)%nat.
Proof.
  apply (chunkText_iteration_bound (str "abcdefghij") 4 1); lia.
Defined.

(** C3 (what the code does).  When [chunkSize - overlap <= 0] and the text
    is longer than [chunkSize] and not blank, the loop of [chunkText] does
    not end: no amount of fuel yields a result. *)
Theorem chunkText_nonpositive_step_diverges
    (text : jsstring) (chunkSize overlap : Z) :
  chunkSize - overlap <= 0 ->
  (exists c, In c text /\ is_whitespace c = false) ->
  chunkSize < len text ->
  forall fuel, chunkText fuel text chunkSize overlap = None.
Proof.
  intros Hstep Hvis Hlong fuel; unfold chunkText.
  pose proof (visible_nonempty text Hvis) as Hpos.
  apply blank_false_iff in Hvis; rewrite Hvis.
  destruct (len text <=? chunkSize) eqn:Hs; [apply Z.leb_le in Hs; lia|].
  apply chunkText_loop_diverges; lia.
Qed.

Lemma chunkText_nonpositive_step_diverges_witness :
  chunkText 1000 (str "abc") 2 2 = None.
Proof.
  refine (chunkText_nonpositive_step_diverges (str "abc") 2 2 _ _ _ 1000%nat).
  - lia.
  - exists 97%N; split; [left; reflexivity | reflexivity].
  - vm_compute; reflexivity.
Defined.

(** C4 (amended).  A text that holds a unit other than white space and is
    no longer than [chunkSize] comes back as the single chunk [text], from
    both chunkers; [chunkTextSmart] does not trim it on this path. *)
Theorem chunkers_short_text (fuel : nat) (text : jsstring)
    (chunkSize overlap : Z) :
  (exists c, In c text /\ is_whitespace c = false) ->
  len text <= chunkSize ->
  chunkText fuel text chunkSize overlap = Some [text]
  /\ chunkTextSmart fuel text chunkSize overlap = Some [text].
Proof.
  intros Hvis Hs; unfold chunkText, chunkTextSmart.
  apply blank_false_iff in Hvis; rewrite Hvis.
  apply Z.leb_le in Hs; rewrite Hs; split; reflexivity.
Qed.

Lemma chunkers_short_text_witness :
  chunkText 0 (str " a") 5 0 = Some [str " a"]
  /\ chunkTextSmart 0 (str " a") 5 0 = Some [str " a"].
Proof.
  apply (chunkers_short_text 0 (str " a") 5 0).
  - exists 97%N; split; [right; left; reflexivity | reflexivity].
  - vm_compute; discriminate.
Defined.

(** C4 as stated fails twice: a non-empty text of white space yields no
    chunk at all, and [chunkTextSmart] returns a short text untrimmed. *)
Lemma chunkers_short_text_counterexample :
  (str " " <> [] /\ len (str " ") <= 5
   /\ chunkText 1 (str " ") 5 0 <> Some [str " "])
  /\ (str " a" <> [] /\ len (str " a") <= 5
      /\ chunkTextSmart 1 (str " a") 5 0 <> Some [trim (str " a")]).
Proof.
  repeat split; try discriminate; vm_compute; discriminate.
Qed.

(** C9.  A text that is empty or all white space yields the empty
    sequence from both chunkers, whatever the parameters. *)
Theorem chunkers_blank_text (fuel : nat) (text : jsstring)
    (chunkSize overlap : Z) :
  (forall c, In c text -> is_whitespace c = true) ->
  chunkText fuel text chunkSize overlap = Some []
  /\ chunkTextSmart fuel text chunkSize overlap = Some [].
Proof.
  intros Hws; unfold chunkText, chunkTextSmart.
  assert (Hb : blank text = true).
  { apply blank_true_iff, forallb_forall; exact Hws. }
  rewrite Hb; split; reflexivity.
Qed.

Lemma chunkers_blank_text_witness :
  chunkText 0 (str "  " ++ [LF]) 2 0 = Some []
  /\ chunkTextSmart 0 (str "  " ++ [LF]) 2 0 = Some [].
Proof.
  apply (chunkers_blank_text 0 (str "  " ++ [LF]) 2 0).
  intros c [<- | [<- | [<- | []]]]; reflexivity.
Defined.

(** C5 (amended).  With [chunkSize > 0] and [0 <= overlap < chunkSize], for
    a text that is empty or holds a unit other than white space, the
    chunks of [chunkText], concatenated after the first [overlap] units of
    every chunk but the first are dropped, are the text again. *)
Theorem chunkText_roundtrip (fuel : nat) (text : jsstring)
    (chunkSize overlap : Z) :
  0 < chunkSize -> 0 <= overlap < chunkSize ->
  text = [] \/ (exists c, In c text /\ is_whitespace c = false) ->
  (iterations_bound text chunkSize overlap <= fuel)%nat ->
  exists chunks,
    chunkText fuel text chunkSize overlap = Some chunks
    /\ dedup_concat overlap chunks = text.
Proof.
  intros Hc Ho Htext Hfuel.
  destruct Htext as [-> | Hvis].
  - exists []; split; reflexivity.
  - unfold chunkText.
    apply blank_false_iff in Hvis; rewrite Hvis.
    destruct (len text <=? chunkSize) eqn:Hs.
    + exists [text]; split; [reflexivity|].
      simpl; apply app_nil_r.
    + apply Z.leb_gt in Hs.
      destruct (chunkText_loop_returns text chunkSize overlap Hc Ho Hs)
        as [chunks [Hrun _]].
      apply (chunkText_loop_mono _ _ _ _ fuel) in Hrun; [|exact Hfuel].
      exists chunks; split; [exact Hrun|].
      apply chunkText_loop_covers in Hrun; try lia.
      destruct Hrun as [new [-> [Hcat Hhead]]].
      destruct Hhead as [rest ->]; [lia|].
      simpl in Hcat |- *.
      replace (Z.min chunkSize (len text)) with chunkSize in * by lia.
      set (first := substring text 0 chunkSize) in *.
      rewrite <- (firstn_skipn (Z.to_nat overlap) first), <- app_assoc, Hcat.
      subst first; rewrite substring_from_start by lia.
      rewrite firstn_firstn.
      replace (Nat.min (Z.to_nat overlap) (Z.to_nat chunkSize))
        with (Z.to_nat overlap) by lia.
      apply firstn_skipn.
Qed.

Lemma chunkText_roundtrip_witness :
  exists chunks,
    chunkText 4 (str "abcdefghij") 4 1 = Some chunks
    /\ dedup_concat 1 chunks = str "abcdefghij".
Proof.
  apply (chunkText_roundtrip 4 (str "abcdefghij") 4 1).
  - lia.
  - lia.
  - right; exists 97%N; split; [left; reflexivity | reflexivity].
  - vm_compute; lia.
Defined.

(** C5 as stated fails on a text of white space: no chunk is returned, so
    nothing is reconstructed. *)
Lemma chunkText_roundtrip_counterexample :
  0 < 1 /\ 0 <= 0 < 1
  /\ chunkText (iterations_bound (str " ") 1 0) (str " ") 1 0 = Some []
  /\ dedup_concat 0 [] <> str " ".
Proof.
  repeat split; try lia; try reflexivity; discriminate.
Qed.

(** C6 (amended).  On a text of 2500 units that is not all white space,
    [chunkText] with [chunkSize = 1000] and [overlap = 200] returns the
    three chunks of the ranges [0,1000), [800,1800) and [1600,2500), in
    three turns of its loop. *)
Theorem chunkText_2500 (fuel : nat) (text : jsstring) :
  len text = 2500 ->
  (exists c, In c text /\ is_whitespace c = false) ->
  (3 <= fuel)%nat ->
  chunkText fuel text 1000 200
  = Some [substring text 0 1000; substring text 800 1800;
          substring text 1600 2500].
Proof.
  intros Hlen Hvis Hfuel; unfold chunkText.
  apply blank_false_iff in Hvis; rewrite Hvis, Hlen; simpl.
  destruct fuel as [|[|[|fuel]]]; try lia.
  rewrite chunkText_loop_continue by lia.
  rewrite chunkText_loop_continue by lia.
  rewrite chunkText_loop_last by lia.
  rewrite Hlen; reflexivity.
Qed.

Lemma chunkText_2500_witness :
  chunkText 3 (repeat 97%N 2500) 1000 200
  = Some [substring (repeat 97%N 2500) 0 1000;
          substring (repeat 97%N 2500) 800 1800;
          substring (repeat 97%N 2500) 1600 2500].
Proof.
  apply (chunkText_2500 3 (repeat 97%N 2500)).
  - vm_compute; reflexivity.
  - exists 97%N; split; [left; reflexivity | reflexivity].
  - lia.
Defined.

(** C6 as stated fails on 2500 spaces: the guard returns no chunk. *)
Lemma chunkText_2500_counterexample :
  len (repeat 32%N 2500) = 2500
  /\ chunkText 3 (repeat 32%N 2500) 1000 200 = Some [].
Proof.
  split; vm_compute; reflexivity.
Qed.

(** ** The boundary-aware chunker *)

(** *** [lastIndexOf] *)

Lemma startsWith_len (s pat : jsstring) :
  startsWith s pat = true -> len pat <= len s.
Proof.
  revert s; induction pat as [|p pat IH]; intros s H.
  - unfold len; simpl; lia.
  - destruct s as [|c s]; simpl in H; [discriminate|].
    apply andb_true_iff in H; destruct H as [_ H]; apply IH in H.
    unfold len in *; simpl; lia.
Qed.

Lemma startsWith_iff (s pat : jsstring) :
  startsWith s pat = true <-> exists q, s = pat ++ q.
Proof.
  revert s; induction pat as [|p pat IH]; intros s.
  - simpl; split; [intros _; exists s; reflexivity | reflexivity].
  - destruct s as [|c s]; simpl.
    + split; [discriminate | intros [q Hq]; discriminate].
    + rewrite andb_true_iff, N.eqb_eq, IH; split.
      * intros [-> [q ->]]; exists q; reflexivity.
      * intros [q Hq]; injection Hq as -> ->; split; [reflexivity|].
        exists q; reflexivity.
Qed.

(** The scan returns [acc] when [pat] starts at no offset of [s], and
    otherwise [i] plus the largest offset at which it starts. *)
Lemma lastIndexOf_from_spec (pat s : jsstring) : forall i acc,
  (lastIndexOf_from s pat i acc = acc
   /\ forall j, (j <= length s)%nat -> startsWith (skipn j s) pat = false)
  \/ (exists j, (j <= length s)%nat
       /\ lastIndexOf_from s pat i acc = i + Z.of_nat j
       /\ startsWith (skipn j s) pat = true
       /\ forall k, (j < k <= length s)%nat ->
                    startsWith (skipn k s) pat = false).
Proof.
  induction s as [|c s IH]; intros i acc.
  - simpl lastIndexOf_from. destruct (startsWith [] pat) eqn:E.
    + right; exists O; simpl; repeat split;
        [lia | lia | exact E | intros k Hk; lia].
    + left; split; [reflexivity|].
      intros j Hj; simpl in Hj; replace j with O by lia; exact E.
  - simpl lastIndexOf_from.
    destruct (IH (i + 1) (if startsWith (c :: s) pat then i else acc))
      as [[Hr Hno] | [j [Hj [Hr [Hat Hlater]]]]].
    + destruct (startsWith (c :: s) pat) eqn:E.
      * right; exists O; repeat split;
          [simpl; lia | rewrite Hr; lia | exact E |].
        intros k Hk; destruct k as [|k]; [lia|].
        simpl in Hk |- *; apply Hno; lia.
      * left; split; [exact Hr|].
        intros j Hj; destruct j as [|j]; [exact E|].
        simpl in Hj |- *; apply Hno; lia.
    + right; exists (S j); repeat split;
        [simpl; lia | rewrite Hr; lia | exact Hat |].
      intros k Hk; destruct k as [|k]; [lia|].
      simpl in Hk |- *; apply Hlater; lia.
Qed.

(** [lastIndexOf] is [-1], or the start of an occurrence that fits. *)
Lemma lastIndexOf_range (s pat : jsstring) :
  lastIndexOf s pat = -1
  \/ (0 <= lastIndexOf s pat /\ lastIndexOf s pat + len pat <= len s).
Proof.
  unfold lastIndexOf.
  destruct (lastIndexOf_from_spec pat s 0 (-1))
    as [[Hr _] | [j [Hj [Hr [Hat _]]]]]; [left; exact Hr|].
  right; rewrite Hr; split; [lia|].
  apply startsWith_len in Hat.
  unfold len in *; rewrite length_skipn in Hat; lia.
Qed.

Lemma lastIndexOf_none_iff (s pat : jsstring) :
  lastIndexOf s pat = -1 <-> ~ occurs pat s.
Proof.
  unfold lastIndexOf, occurs.
  destruct (lastIndexOf_from_spec pat s 0 (-1))
    as [[Hr Hno] | [j [Hj [Hr [Hat _]]]]].
  - split; [intros _ | intros _; exact Hr].
    intros [before [after Hs]].
    assert (Hj : (length before <= length s)%nat).
    { rewrite Hs, length_app; lia. }
    specialize (Hno _ Hj).
    rewrite Hs, skipn_app, skipn_all, Nat.sub_diag in Hno; simpl in Hno.
    assert (Hyes : startsWith (pat ++ after) pat = true).
    { apply startsWith_iff; exists after; reflexivity. }
    congruence.
  - split; [rewrite Hr; lia|].
    intros Hno; contradiction Hno.
    apply startsWith_iff in Hat; destruct Hat as [q Hq].
    exists (firstn j s), q.
    rewrite <- Hq; symmetry; apply firstn_skipn.
Qed.

(** When found, the position is that of the last occurrence. *)
Lemma lastIndexOf_last (s pat : jsstring) :
  0 <= lastIndexOf s pat ->
  exists before after,
    s = before ++ pat ++ after
    /\ len before = lastIndexOf s pat
    /\ forall before' after',
         s = before' ++ pat ++ after' -> len before' <= len before.
Proof.
  unfold lastIndexOf; intros Hpos.
  destruct (lastIndexOf_from_spec pat s 0 (-1))
    as [[Hr _] | [j [Hj [Hr [Hat Hlater]]]]]; [lia|].
  apply startsWith_iff in Hat; destruct Hat as [q Hq].
  exists (firstn j s), q.
  assert (Hlenj : len (firstn j s) = Z.of_nat j).
  { unfold len; rewrite length_firstn; lia. }
  repeat split.
  - rewrite <- Hq; symmetry; apply firstn_skipn.
  - rewrite Hr; lia.
  - intros before' after' Hs'.
    destruct (le_lt_dec (length before') j) as [Hle | Hgt];
      [unfold len in *; lia|].
    assert (Hk : (j < length before' <= length s)%nat).
    { split; [exact Hgt|]. rewrite Hs', length_app; lia. }
    specialize (Hlater _ Hk).
    rewrite Hs', skipn_app, skipn_all, Nat.sub_diag in Hlater.
    simpl in Hlater.
    assert (Hyes : startsWith (pat ++ after') pat = true).
    { apply startsWith_iff; exists after'; reflexivity. }
    congruence.
Qed.

(** *** The search for a boundary *)

Lemma sentenceEndings_len :
  Forall (fun ending => len ending = 2) sentenceEndings.
Proof. repeat constructor. Qed.

Lemma boundary_steps_near (searchText : jsstring) (endings : list jsstring) :
  Forall (fun ending => len ending = 2) endings ->
  forall lastBoundary best,
    near searchText lastBoundary best ->
    near searchText
      (fold_left (boundary_step searchText) endings lastBoundary)
      (fold_left (spec_boundary_step searchText) endings best).
Proof.
  induction 1 as [|ending endings Hlen _ IH]; intros lb best Hnear;
    [exact Hnear|].
  simpl; apply IH; clear IH.
  unfold boundary_step, spec_boundary_step, near in *.
  rewrite Hlen.
  pose proof (lastIndexOf_range searchText ending) as Hpos.
  rewrite Hlen in Hpos.
  destruct (lastIndexOf searchText ending >? lb) eqn:E1;
    destruct (lastIndexOf searchText ending <? 0) eqn:E2;
    try (apply Z.gtb_lt in E1); try (apply Z.ltb_lt in E2);
    try (apply Z.ltb_ge in E2);
    try (assert (~ lb < lastIndexOf searchText ending)
           by (rewrite Z.gtb_ltb in E1; apply Z.ltb_ge in E1; lia));
    lia.
Qed.

Lemma findBoundary_near (searchText : jsstring) :
  near searchText (findBoundary searchText)
    (spec_rightmostBoundary searchText).
Proof.
  apply boundary_steps_near; [apply sentenceEndings_len|].
  left; split; reflexivity.
Qed.

(** The code's boundary is [-1] or lies in the window, at least 2 in. *)
Lemma findBoundary_range (searchText : jsstring) :
  findBoundary searchText = -1
  \/ 2 <= findBoundary searchText <= len searchText.
Proof.
  destruct (findBoundary_near searchText) as [[H _] | H]; [left | right]; lia.
Qed.

(** No marker in the window: nothing is found. *)
Lemma findBoundary_none (searchText : jsstring) :
  (forall ending, In ending sentenceEndings -> ~ occurs ending searchText) ->
  findBoundary searchText = -1.
Proof.
  intros Hno; unfold findBoundary.
  assert (Hfold : forall endings,
    (forall ending, In ending endings -> ~ occurs ending searchText) ->
    fold_left (boundary_step searchText) endings (-1) = -1).
  { induction endings as [|ending endings IH]; intros H; [reflexivity|].
    simpl. unfold boundary_step at 2.
    assert (Hpos : lastIndexOf searchText ending = -1).
    { apply lastIndexOf_none_iff, H; left; reflexivity. }
    rewrite Hpos; simpl. apply IH; intros e He; apply H; right; exact He. }
  apply Hfold, Hno.
Qed.

(** A marker in the window: something is found. *)
Lemma findBoundary_some (searchText ending : jsstring) :
  In ending sentenceEndings -> occurs ending searchText ->
  0 < findBoundary searchText.
Proof.
  intros Hin Hocc.
  assert (Hspec : forall endings best,
    In ending endings -> -1 <= best ->
    0 < fold_left (spec_boundary_step searchText) endings best).
  { assert (Hkeep : forall endings best, 0 < best ->
      0 < fold_left (spec_boundary_step searchText) endings best).
    { induction endings as [|e endings IH]; intros best Hb; [exact Hb|].
      simpl; apply IH; unfold spec_boundary_step.
      destruct (lastIndexOf searchText e <? 0); lia. }
    induction endings as [|e endings IH]; intros best Hin' Hb;
      [destruct Hin'|].
    destruct Hin' as [-> | Hin'].
    - simpl; apply Hkeep; unfold spec_boundary_step.
      pose proof (lastIndexOf_range searchText ending) as [Hm | Hr].
      + apply lastIndexOf_none_iff in Hm; contradiction.
      + destruct (lastIndexOf searchText ending <? 0) eqn:E;
          [apply Z.ltb_lt in E; lia|].
        pose proof (len_nonneg ending).
        assert (len ending = 2).
        { pose proof sentenceEndings_len as HF.
          rewrite Forall_forall in HF; apply HF; exact Hin. }
        lia.
    - simpl; apply IH; [exact Hin'|]. unfold spec_boundary_step.
      destruct (lastIndexOf searchText e <? 0); lia. }
  pose proof (findBoundary_near searchText) as [[_ Hb] | H]; [|lia].
  specialize (Hspec sentenceEndings (-1) Hin).
  unfold spec_rightmostBoundary in Hb; lia.
Qed.

Lemma substring_len_le (s : jsstring) (a b : Z) :
  a <= b -> len (substring s a b) <= b - a.
Proof.
  intros Hab; unfold substring, clamp, len.
  rewrite length_firstn; lia.
Qed.

Section BoundaryAware.

Variable text : jsstring.
Variables chunkSize overlap : Z.

(** Where [smartEnd] can fall: at the end of the text for the last
    chunk; otherwise at the naive end, or inside the search window at
    least two units after its start. *)
Lemma smartEnd_cases startIndex :
  (len text <= startIndex + chunkSize
   /\ smartEnd text chunkSize startIndex = len text)
  \/ (startIndex + chunkSize < len text
      /\ (smartEnd text chunkSize startIndex = startIndex + chunkSize
          \/ (0 <= chunkSize ->
              startIndex + chunkSize - floor_fifth chunkSize + 2
                <= smartEnd text chunkSize startIndex
                <= startIndex + chunkSize))).
Proof.
  unfold smartEnd.
  destruct (Z.min (startIndex + chunkSize) (len text) <? len text) eqn:E.
  - apply Z.ltb_lt in E; right; split; [lia|].
    replace (Z.min (startIndex + chunkSize) (len text))
      with (startIndex + chunkSize) by lia.
    set (searchStart := startIndex + chunkSize - floor_fifth chunkSize).
    set (searchText := substring text searchStart (startIndex + chunkSize)).
    destruct (findBoundary searchText >? 0) eqn:F; [|left; reflexivity].
    apply Z.gtb_lt in F; right; intros Hc.
    assert (Hw : 0 <= floor_fifth chunkSize)
      by (unfold floor_fifth; apply Z.div_pos; lia).
    pose proof (findBoundary_range searchText) as [Hm | Hr]; [lia|].
    pose proof (substring_len_le text searchStart (startIndex + chunkSize))
      as Hlen.
    fold searchText in Hlen; subst searchStart; lia.
  - apply Z.ltb_ge in E; left; lia.
Qed.

(** No marker in the window: the naive end is kept. *)
Lemma smartEnd_no_marker startIndex :
  let endIndex := Z.min (startIndex + chunkSize) (len text) in
  (forall ending, In ending sentenceEndings ->
     ~ occurs ending
         (substring text (endIndex - floor_fifth chunkSize) endIndex)) ->
  smartEnd text chunkSize startIndex = endIndex.
Proof.
  intros endIndex Hno; unfold smartEnd; fold endIndex.
  destruct (endIndex <? len text); [|reflexivity].
  rewrite (findBoundary_none _ Hno); reflexivity.
Qed.

(** The end the code picks is never right of the one the specification
    describes, and at most 2 units left of it. *)
Lemma smartEnd_near_spec startIndex :
  spec_smartEnd text chunkSize startIndex - 2
    <= smartEnd text chunkSize startIndex
    <= spec_smartEnd text chunkSize startIndex.
Proof.
  unfold smartEnd, spec_smartEnd.
  destruct (Z.min (startIndex + chunkSize) (len text) <? len text); [|lia].
  match goal with
  | |- context [findBoundary ?w] =>
      pose proof (findBoundary_near w) as [[H1 H2] | H]
  end.
  - rewrite H1, H2; simpl; lia.
  - match goal with
    | |- context [findBoundary ?w >? 0] =>
        destruct (findBoundary w >? 0) eqn:F;
        [|rewrite Z.gtb_ltb in F; apply Z.ltb_ge in F; lia]
    end.
    match goal with
    | |- context [spec_rightmostBoundary ?w <? 0] =>
        destruct (spec_rightmostBoundary w <? 0) eqn:G;
        [apply Z.ltb_lt in G; lia | lia]
    end.
Qed.

Lemma chunkTextSmart_loop_S fuel startIndex chunks :
  startIndex < len text ->
  chunkTextSmart_loop (S fuel) text chunkSize overlap startIndex chunks =
  let endIndex := smartEnd text chunkSize startIndex in
  let chunk := trim (substring text startIndex endIndex) in
  let chunks' := if len chunk >? 0 then chunks ++ [chunk] else chunks in
  if endIndex =? len text then Some chunks'
  else chunkTextSmart_loop fuel text chunkSize overlap
         (endIndex - overlap) chunks'.
Proof.
  intros H; simpl.
  destruct (startIndex <? len text) eqn:E; [reflexivity|].
  apply Z.ltb_ge in E; lia.
Qed.

Lemma chunkTextSmart_loop_exit fuel startIndex chunks :
  len text <= startIndex ->
  chunkTextSmart_loop fuel text chunkSize overlap startIndex chunks
  = Some chunks.
Proof.
  intros H; destruct fuel; simpl;
    (destruct (startIndex <? len text) eqn:E;
     [apply Z.ltb_lt in E; lia | reflexivity]).
Qed.

(** More fuel does not change a result. *)
Lemma chunkTextSmart_loop_mono fuel : forall fuel' startIndex chunks res,
  (fuel <= fuel')%nat ->
  chunkTextSmart_loop fuel text chunkSize overlap startIndex chunks
  = Some res ->
  chunkTextSmart_loop fuel' text chunkSize overlap startIndex chunks
  = Some res.
Proof.
  induction fuel as [|fuel IH]; intros fuel' st acc res Hle H.
  - simpl in H. destruct (st <? len text) eqn:E; [discriminate|].
    apply Z.ltb_ge in E. rewrite chunkTextSmart_loop_exit; assumption.
  - destruct (Z_lt_ge_dec st (len text)) as [Hlt | Hge].
    + destruct fuel' as [|fuel']; [lia|].
      rewrite chunkTextSmart_loop_S in * by assumption.
      cbv zeta in *.
      destruct (smartEnd text chunkSize st =? len text); [assumption|].
      apply IH; [lia | assumption].
    + rewrite chunkTextSmart_loop_exit in * by lia. assumption.
Qed.

(** Every chunk the loop adds is visible. *)
Lemma chunkTextSmart_loop_visible fuel : forall startIndex chunks res,
  Forall visible chunks ->
  chunkTextSmart_loop fuel text chunkSize overlap startIndex chunks
  = Some res ->
  Forall visible res.
Proof.
  induction fuel as [|fuel IH]; intros st acc res Hacc H.
  - simpl in H. destruct (st <? len text); [discriminate|].
    injection H as <-; exact Hacc.
  - destruct (Z_lt_ge_dec st (len text)) as [Hlt | Hge].
    + rewrite chunkTextSmart_loop_S in H by assumption. cbv zeta in H.
      set (chunk := trim (substring text st
                            (smartEnd text chunkSize st))) in *.
      assert (Hacc' : Forall visible
                (if len chunk >? 0 then acc ++ [chunk] else acc)).
      { destruct (len chunk >? 0) eqn:E; [|exact Hacc].
        apply Forall_app; split; [exact Hacc|].
        constructor; [|constructor].
        apply trim_nonempty_visible.
        intros Hnil; unfold chunk in E; rewrite Hnil in E; discriminate. }
      destruct (smartEnd text chunkSize st =? len text).
      * injection H as <-; exact Hacc'.
      * exact (IH _ _ _ Hacc' H).
    + rewrite chunkTextSmart_loop_exit in H by lia.
      injection H as <-; exact Hacc.
Qed.

(** When the overlap is smaller than the part of a chunk that precedes
    the search window, every turn moves the cursor right by at least one
    unit, so [fuel] turns suffice from a cursor within [fuel] of the
    end. *)
Lemma chunkTextSmart_loop_terminates fuel : forall startIndex chunks,
  0 < chunkSize -> 0 <= overlap ->
  overlap + floor_fifth chunkSize < chunkSize ->
  0 <= startIndex ->
  len text - startIndex <= Z.of_nat fuel ->
  exists res,
    chunkTextSmart_loop fuel text chunkSize overlap startIndex chunks
    = Some res
    /\ (length res <= length chunks + fuel)%nat.
Proof.
  induction fuel as [|fuel IH]; intros st acc Hc Ho Hw Hst Hfuel.
  - rewrite chunkTextSmart_loop_exit by lia.
    exists acc; split; [reflexivity | lia].
  - destruct (Z_lt_ge_dec st (len text)) as [Hlt | Hge].
    + rewrite chunkTextSmart_loop_S by assumption. cbv zeta.
      set (chunk := trim (substring text st (smartEnd text chunkSize st))).
      set (acc' := if len chunk >? 0 then acc ++ [chunk] else acc).
      assert (Hacc' : (length acc' <= length acc + 1)%nat).
      { subst acc'; destruct (len chunk >? 0);
          [rewrite length_app; simpl; lia | lia]. }
      destruct (smartEnd text chunkSize st =? len text) eqn:E.
      * exists acc'; split; [reflexivity | lia].
      * apply Z.eqb_neq in E.
        assert (Hprog : st + 1 <= smartEnd text chunkSize st - overlap).
        { assert (Hw0 : 0 <= floor_fifth chunkSize)
            by (unfold floor_fifth; apply Z.div_pos; lia).
          destruct (smartEnd_cases st) as [[_ H] | [_ [H | H]]];
            [lia | lia | specialize (H ltac:(lia)); lia]. }
        destruct (IH (smartEnd text chunkSize st - overlap) acc')
          as [res [Hres Hlen]]; try assumption; try lia.
        exists res; split; [exact Hres | lia].
    + rewrite chunkTextSmart_loop_exit by lia.
      exists acc; split; [reflexivity | lia].
Qed.

End BoundaryAware.

(** C1 (what the code does).  With [chunkSize = 18] the window of the first
    chunk of [paragraph_text] is [".\n\n"]: the marker [".\n"] ends at
    offset 2 of it and the marker ["\n\n"], further right, at offset 3.
    The rule of the specification cuts at 18, after the rightmost marker;
    the code cuts at 17, because the position 1 of ["\n\n"] is compared
    with the END 2 of the marker found before it. *)
Theorem chunkTextSmart_boundary_not_rightmost :
  substring paragraph_text (18 - floor_fifth 18) 18 = str "." ++ [LF; LF]
  /\ lastIndexOf (str "." ++ [LF; LF]) (str "." ++ [LF]) = 0
  /\ lastIndexOf (str "." ++ [LF; LF]) [LF; LF] = 1
  /\ spec_smartEnd paragraph_text 18 0 = 18
  /\ smartEnd paragraph_text 18 0 = 17
  /\ chunkTextSmart 3 paragraph_text 18 0
     = Some [str "First paragraph."; str "Second paragraph"; str "goes on."].
Proof.
  repeat split; vm_compute; reflexivity.
Qed.

(** [chunkTextSmart] returns, within [text.length] turns of its loop, when
    [0 <= overlap] and [overlap + floor(chunkSize * 0.2) < chunkSize]; the
    defaults 1000 and 200 are such. *)
Lemma chunkTextSmart_terminates (fuel : nat) (text : jsstring)
    (chunkSize overlap : Z) :
  0 < chunkSize -> 0 <= overlap ->
  overlap + floor_fifth chunkSize < chunkSize ->
  (length text <= fuel)%nat ->
  exists chunks,
    chunkTextSmart fuel text chunkSize overlap = Some chunks
    /\ (length chunks <= length text)%nat.
Proof.
  intros Hc Ho Hw Hfuel; unfold chunkTextSmart.
  destruct (blank text) eqn:Hb.
  - exists []; split; [reflexivity | simpl; lia].
  - apply blank_false_iff, visible_nonempty in Hb.
    destruct (len text <=? chunkSize).
    + exists [text]; split; [reflexivity | unfold len in Hb; simpl; lia].
    + destruct (chunkTextSmart_loop_terminates text chunkSize overlap
                  (length text) 0 []) as [res [Hres Hlen]];
        try assumption; try (unfold len; lia).
      exists res; split; [|simpl in Hlen; exact Hlen].
      apply (chunkTextSmart_loop_mono text chunkSize overlap (length text));
        assumption.
Qed.

(** C8.  Whatever the text and the parameters, every chunk of a sequence
    that [chunkTextSmart] returns holds a unit that is not white space,
    that is, is not empty after trimming. *)
Theorem chunkTextSmart_chunks_visible (fuel : nat) (text : jsstring)
    (chunkSize overlap : Z) (chunks : list jsstring) :
  chunkTextSmart fuel text chunkSize overlap = Some chunks ->
  Forall (fun chunk => visible chunk /\ trim chunk <> []) chunks.
Proof.
  intros H.
  assert (Hvis : Forall visible chunks).
  { revert H; unfold chunkTextSmart.
    destruct (blank text) eqn:Hb.
    - intros H; injection H as <-; constructor.
    - destruct (len text <=? chunkSize).
      + intros H; injection H as <-.
        constructor; [apply blank_false_iff; exact Hb | constructor].
      + apply chunkTextSmart_loop_visible; constructor. }
  eapply Forall_impl; [|exact Hvis].
  intros chunk Hc; split; [exact Hc|].
  intros Hnil; apply trim_nil_iff in Hnil.
  apply forallb_false_exists in Hc; congruence.
Qed.

Lemma chunkTextSmart_chunks_visible_witness :
  Forall (fun chunk => visible chunk /\ trim chunk <> [])
    [str "abcdefgh."; str "tail"].
Proof.
  apply (chunkTextSmart_chunks_visible 3 gap_text 10 0).
  vm_compute; reflexivity.
Defined.

(** ** File types *)

Lemma split_from_nonempty (sep : codeunit) (s : jsstring) :
  forall cur, split_from sep s cur <> [].
Proof.
  induction s as [|c s IH]; intros cur; simpl; [discriminate|].
  destruct (N.eqb c sep); [discriminate | apply IH].
Qed.

Lemma pop_cons {A : Type} (x : A) (l : list A) :
  l <> [] -> pop (x :: l) = pop l.
Proof. destruct l; [contradiction | reflexivity]. Qed.

(** Without a separator the split has one segment, the string. *)
Lemma split_from_no_sep (sep : codeunit) (s : jsstring) :
  ~ In sep s -> forall cur, split_from sep s cur = [rev cur ++ s].
Proof.
  induction s as [|c s IH]; intros Hno cur; simpl.
  - rewrite app_nil_r; reflexivity.
  - destruct (N.eqb c sep) eqn:E.
    + apply N.eqb_eq in E; contradiction Hno; left; exact E.
    + rewrite IH by (intros H; apply Hno; right; exact H).
      simpl; rewrite <- app_assoc; reflexivity.
Qed.

(** The last segment is what follows the last separator. *)
Lemma pop_split_from_last (sep : codeunit) (base ext : jsstring) :
  ~ In sep ext ->
  forall cur, pop (split_from sep (base ++ sep :: ext) cur) = Some ext.
Proof.
  intros Hno; induction base as [|c base IH]; intros cur; simpl.
  - rewrite N.eqb_refl, split_from_no_sep by exact Hno; reflexivity.
  - destruct (N.eqb c sep); [|apply IH].
    rewrite pop_cons by apply split_from_nonempty. apply IH.
Qed.

(** A string has no dot, or a last one. *)
Lemma last_dot_cases (s : jsstring) :
  ~ In DOT s \/ exists base ext, s = base ++ DOT :: ext /\ ~ In DOT ext.
Proof.
  induction s as [|c s [Hno | [base [ext [-> Hext]]]]].
  - left; intros [].
  - destruct (N.eq_dec c DOT) as [-> | Hc].
    + right; exists [], s; split; [reflexivity | exact Hno].
    + left; intros [H | H]; [congruence | contradiction].
  - right; exists (c :: base), ext; split; [reflexivity | exact Hext].
Qed.

Lemma spec_after_last_dot_none (s : jsstring) :
  ~ In DOT s -> spec_after_last_dot s = None.
Proof.
  induction s as [|c s IH]; intros Hno; simpl; [reflexivity|].
  rewrite IH by (intros H; apply Hno; right; exact H).
  destruct (N.eqb c DOT) eqn:E; [|reflexivity].
  apply N.eqb_eq in E; contradiction Hno; left; exact E.
Qed.

Lemma spec_after_last_dot_some (base ext : jsstring) :
  ~ In DOT ext -> spec_after_last_dot (base ++ DOT :: ext) = Some ext.
Proof.
  intros Hno; induction base as [|c base IH]; simpl.
  - rewrite spec_after_last_dot_none by exact Hno. reflexivity.
  - rewrite IH; reflexivity.
Qed.

Lemma or_else_nil (a : jsstring) : or_else a [] = a.
Proof. destruct a; reflexivity. Qed.

Section FileTypes.

Variable toLowerCase : jsstring -> jsstring.

(** [getFileExtension] against the words of the specification: the text
    after the last dot, lower-cased; and the whole name, lower-cased,
    when it has no dot. *)
Lemma getFileExtension_spec (filename : jsstring) :
  getFileExtension toLowerCase filename =
  match spec_after_last_dot filename with
  | Some ext => toLowerCase ext
  | None => toLowerCase filename
  end.
Proof.
  unfold getFileExtension, split.
  destruct (last_dot_cases filename) as [Hno | [base [ext [-> Hext]]]].
  - rewrite split_from_no_sep, spec_after_last_dot_none by exact Hno.
    simpl; apply or_else_nil.
  - rewrite pop_split_from_last, spec_after_last_dot_some by exact Hext.
    apply or_else_nil.
Qed.

Lemma validateFileType_iff (filename : jsstring) :
  validateFileType toLowerCase filename = true <->
  getFileExtension toLowerCase filename = str "txt"
  \/ getFileExtension toLowerCase filename = str "md".
Proof.
  unfold validateFileType, includes, allowedExtensions; simpl.
  rewrite orb_false_r, orb_true_iff, !eqb_eq; reflexivity.
Qed.

Hypothesis toLowerCase_ascii : forall s,
  Forall (fun c => (c < 128)%N) s -> toLowerCase s = map ascii_lower s.

(** C10 (amended).  [validateFileType] accepts a file name exactly when
    its last dot-separated segment -- the text after the last dot, or
    the whole name when it has no dot -- is [txt] or [md] once
    lower-cased; no name that ends in [.pdf] is accepted; and
    [extractTextFromPDF] rejects every buffer with the fixed message. *)
Theorem file_type_policy :
  (forall filename,
     validateFileType toLowerCase filename = true <->
     let segment := match spec_after_last_dot filename with
                    | Some ext => ext
                    | None => filename
                    end in
     toLowerCase segment = str "txt" \/ toLowerCase segment = str "md")
  /\ (forall base,
        validateFileType toLowerCase (base ++ str ".pdf") = false)
  /\ (forall (Buffer : Type) (buffer : Buffer),
        extractTextFromPDF buffer
        = Rejected (str "PDF support is temporarily unavailable. Please upload TXT or MD files instead.")).
Proof.
  split; [|split].
  - intros filename.
    rewrite validateFileType_iff, getFileExtension_spec.
    destruct (spec_after_last_dot filename); reflexivity.
  - intros base.
    apply not_true_is_false; rewrite validateFileType_iff.
    rewrite getFileExtension_spec.
    change (base ++ str ".pdf") with (base ++ DOT :: str "pdf").
    rewrite spec_after_last_dot_some
      by (intros [H | [H | [H | []]]]; discriminate).
    rewrite toLowerCase_ascii by (repeat constructor).
    intros [H | H]; discriminate.
  - reflexivity.
Qed.

End FileTypes.

Lemma file_type_policy_witness :
  (forall filename,
     validateFileType (map ascii_lower) filename = true <->
     let segment := match spec_after_last_dot filename with
                    | Some ext => ext
                    | None => filename
                    end in
     map ascii_lower segment = str "txt" \/ map ascii_lower segment = str "md")
  /\ (forall base,
        validateFileType (map ascii_lower) (base ++ str ".pdf") = false)
  /\ (forall (Buffer : Type) (buffer : Buffer),
        extractTextFromPDF buffer
        = Rejected (str "PDF support is temporarily unavailable. Please upload TXT or MD files instead.")).
Proof.
  apply (file_type_policy (map ascii_lower)).
  intros s _; reflexivity.
Defined.

(** C10 as stated fails on a name without a dot: [txt] has no text after a
    last dot, and is accepted (and so is [NOTES.MD] by its extension). *)
Lemma file_type_policy_counterexample :
  spec_after_last_dot (str "txt") = None
  /\ validateFileType (map ascii_lower) (str "txt") = true.
Proof.
  split; reflexivity.
Qed.

(** ** The ingest route *)

Lemma slice_incl {A : Type} (l : list A) (a b : Z) : incl (slice l a b) l.
Proof.
  intros x Hx; unfold slice in Hx.
  set (n := Z.to_nat (Z.min b (Z.of_nat (length l))
                      - Z.min a (Z.of_nat (length l)))) in Hx.
  set (m := Z.to_nat (Z.min a (Z.of_nat (length l)))) in Hx.
  rewrite <- (firstn_skipn m l); apply in_or_app; right.
  rewrite <- (firstn_skipn n (skipn m l)); apply in_or_app; left.
  exact Hx.
Qed.

(** A slice followed by the rest of the array. *)
Lemma slice_app_rest {A : Type} (l : list A) (i k : Z) :
  0 <= i -> 0 <= k ->
  slice l i (i + k) ++ skipn (Z.to_nat (i + k)) l = skipn (Z.to_nat i) l.
Proof.
  intros Hi Hk; unfold slice.
  set (n := Z.of_nat (length l)).
  destruct (Z_le_gt_dec (i + k) n) as [Hin | Hout].
  - replace (Z.min i n) with i by lia.
    replace (Z.min (i + k) n) with (i + k) by lia.
    replace (Z.to_nat (i + k)) with (Z.to_nat k + Z.to_nat i)%nat by lia.
    rewrite <- skipn_skipn.
    replace (i + k - i) with k by lia. apply firstn_skipn.
  - rewrite (skipn_all2 l (n := Z.to_nat (i + k))) by (subst n; lia).
    rewrite app_nil_r.
    replace (Z.min (i + k) n) with n by lia.
    destruct (Z_le_gt_dec i n) as [Hi' | Hi'].
    + replace (Z.min i n) with i by lia.
      apply firstn_all2; rewrite length_skipn; subst n; lia.
    + replace (Z.min i n) with n by lia.
      rewrite !(skipn_all2 l) by (subst n; lia).
      apply firstn_nil.
Qed.

Section RouteFacts.

Variable Buffer : Type.
Variable Embedding : Type.
Variable toLowerCase : jsstring -> jsstring.
Variable toString_utf8 : Buffer -> jsstring.
Variable getEmbeddings : jsstring -> Promise Embedding.
Variable Date_now : Z -> Z.
Variable Date_toISOString : Z -> jsstring.
Variable new_Pinecone : Promise unit.
Variable PINECONE_INDEX : option jsstring.
Variable upsert : UpsertCall Embedding -> Promise unit.

Local Abbreviation vectorsOf :=
  (makeVectors_from (Buffer := Buffer) (Embedding := Embedding)
     Date_now Date_toISOString).
Local Abbreviation run :=
  (POST toLowerCase toString_utf8 getEmbeddings Date_now
     Date_toISOString new_Pinecone PINECONE_INDEX upsert).

Lemma Promise_all_length (chunks : list jsstring) : forall embeddings,
  Promise_all getEmbeddings chunks = Resolved embeddings ->
  length embeddings = length chunks.
Proof.
  induction chunks as [|c chunks IH]; intros es H; simpl in H.
  - injection H as <-; reflexivity.
  - destruct (getEmbeddings c); [|discriminate].
    destruct (Promise_all getEmbeddings chunks); [|discriminate].
    injection H as <-; simpl; f_equal; apply IH; reflexivity.
Qed.

(** Every record carries the namespace label, ["default"] for an empty
    namespace, and the text of its chunk. *)
Lemma makeVectors_from_metadata ns (file : FormidableFile Buffer) ext total
    (chunks : list jsstring) : forall index embeddings,
  length embeddings = length chunks ->
  let vectors := vectorsOf ns file ext total index chunks embeddings in
  Forall (fun v => namespace (metadata v) = or_else ns (str "default"))
    vectors
  /\ map (fun v => text (metadata v)) vectors = chunks.
Proof.
  induction chunks as [|c chunks IH]; intros index [|e es] Hlen;
    try discriminate; simpl.
  - split; [constructor | reflexivity].
  - destruct (IH (index + 1) es) as [Hns Htext]; [simpl in Hlen; lia|].
    split; [constructor; [reflexivity | exact Hns]|].
    simpl; f_equal; exact Htext.
Qed.

(** The calls of the upsert loop: each targets [namespace || ''] with a
    slice of the records, and when none is rejected the slices, in
    order, are the records from [i] on. *)
Lemma upsert_loop_calls ns (vectors : list (Vector Embedding)) fuel :
  forall i calls outcome calls',
    0 <= i ->
    upsert_loop upsert fuel ns vectors i calls = Some (outcome, calls') ->
    exists new,
      calls' = calls ++ new
      /\ Forall (fun call => target call = or_else ns []
                             /\ incl (batch call) vectors) new
      /\ ((exists u, outcome = Resolved u) ->
          concat (map batch new) = skipn (Z.to_nat i) vectors).
Proof.
  induction fuel as [|fuel IH]; intros i calls outcome calls' Hi H;
    simpl in H; destruct (i <? Z.of_nat (length vectors)) eqn:E;
    try discriminate.
  - injection H as <- <-. exists []; rewrite app_nil_r; repeat split;
      [constructor|]. intros _; simpl; symmetry.
    apply Z.ltb_ge in E; apply skipn_all2; lia.
  - set (call := {| target := or_else ns [];
                    batch := slice vectors i (i + batchSize) |}) in *.
    assert (Hcall : target call = or_else ns []
                    /\ incl (batch call) vectors)
      by (split; [reflexivity | apply slice_incl]).
    destruct (upsert call) eqn:U.
    + apply IH in H; [|unfold batchSize; lia].
      destruct H as [new [-> [Hall Hcat]]].
      exists (call :: new); rewrite <- app_assoc; repeat split;
        [constructor; assumption|].
      intros Hok; simpl; rewrite (Hcat Hok).
      apply slice_app_rest; unfold batchSize; lia.
    + injection H as <- <-.
      exists [call]; repeat split; [constructor; [exact Hcall|constructor]|].
      intros [u Hu]; discriminate.
  - injection H as <- <-. exists []; rewrite app_nil_r; repeat split;
      [constructor|]. intros _; simpl; symmetry.
    apply Z.ltb_ge in E; apply skipn_all2; lia.
Qed.

(** The loop ends: every turn moves [i] by [batchSize]. *)
Lemma upsert_loop_terminates ns (vectors : list (Vector Embedding)) fuel :
  forall i calls,
    Z.of_nat (length vectors) - i <= Z.of_nat fuel ->
    upsert_loop upsert fuel ns vectors i calls <> None.
Proof.
  induction fuel as [|fuel IH]; intros i calls Hfuel; simpl;
    destruct (i <? Z.of_nat (length vectors)) eqn:E;
    try discriminate; apply Z.ltb_lt in E; [lia|].
  destruct (upsert _); [|discriminate].
  apply IH; unfold batchSize; lia.
Qed.

Lemma makeVectors_from_length ns (file : FormidableFile Buffer) ext total
    (chunks : list jsstring) : forall index embeddings,
  (length (vectorsOf ns file ext total index chunks embeddings)
   <= length chunks)%nat.
Proof.
  induction chunks as [|c chunks IH]; intros index [|e es]; simpl;
    try lia.
  specialize (IH (index + 1) es); lia.
Qed.

(** X14.  [POST] answers every request that carries a file: with the
    chunking parameters 1000 and 200 neither the chunker nor the upsert
    loop needs more turns than the text has units. *)
Lemma POST_returns fuel (file : FormidableFile Buffer) rest
    fields_namespace :
  (length (toString_utf8 (buffer file)) <= fuel)%nat ->
  exists result, run fuel (file :: rest) fields_namespace = Some result.
Proof.
  intros Hfuel; unfold POST.
  destruct (chunkTextSmart_terminates fuel (toString_utf8 (buffer file))
              1000 200) as [chunks [Hchunks Hlen]];
    [lia | lia | vm_compute; reflexivity | exact Hfuel |].
  repeat match goal with
         | |- context [match ?x with _ => _ end] => destruct x eqn:?
         end;
    try (eexists; reflexivity); exfalso.
  all: match goal with
       | Hx : (if JS.eqb _ _ then _ else _) = Resolved _ |- _ =>
           destruct (JS.eqb _ _) in Hx;
           [discriminate Hx | injection Hx as <-]
       end.
  all: unfold extractTextFromText in *;
    match goal with
    | Hc : chunkTextSmart _ _ _ _ = _ |- _ =>
        rewrite Hchunks in Hc; try discriminate Hc; injection Hc as <-
    end.
  match goal with
  | Hu : upsert_loop _ _ _ _ _ _ = None |- _ =>
      revert Hu; apply upsert_loop_terminates
  end.
  match goal with
  | |- context [length (makeVectors_from _ _ ?ns ?f ?e ?t ?i ?c ?es)] =>
      pose proof (makeVectors_from_length ns f e t c i es)
  end.
  lia.
Qed.

(** What a run of [POST] that made upsert calls went through. *)
Lemma POST_inversion fuel files fields_namespace resp calls :
  run fuel files fields_namespace = Some (resp, calls) ->
  let ns := match fields_namespace with
            | Some n => or_else n []
            | None => []
            end in
  (calls = [] /\ status resp <> 200)
  \/ exists file rest chunks embeddings outcome,
       files = file :: rest
       /\ chunkTextSmart fuel (toString_utf8 (buffer file)) 1000 200
          = Some chunks
       /\ chunks <> []
       /\ Promise_all getEmbeddings chunks = Resolved embeddings
       /\ upsert_loop upsert fuel ns
            (vectorsOf ns file
               (getFileExtension toLowerCase (originalFilename file))
               (Z.of_nat (length chunks)) 0 chunks embeddings) 0 []
          = Some (outcome, calls)
       /\ (status resp = 200 -> exists u, outcome = Resolved u).
Proof.
  intros H ns. unfold run, POST in H. fold ns in H.
  repeat match type of H with
         | context [match ?x with _ => _ end] => destruct x eqn:?
         end;
    try discriminate;
    try (injection H as <- <-; left; split;
         [reflexivity | simpl; discriminate]).
  all: match goal with
       | Hx : (if JS.eqb _ _ then _ else _) = Resolved _ |- _ =>
           destruct (JS.eqb _ _) in Hx;
           [discriminate Hx | injection Hx as <-]
       end.
  all: injection H as <- <-; right.
  all: match goal with
       | Hc : chunkTextSmart _ _ _ _ = Some ?chunks,
         Hp : Promise_all _ _ = Resolved ?es,
         Hu : upsert_loop _ _ _ _ _ _ = Some (?o, _),
         Hn : originalFilename ?f = _,
         Hz : (Z.of_nat (length ?chunks) =? 0) = false |- _ =>
           exists f; eexists; exists chunks, es, o;
           repeat split;
           [ exact Hc
           | intros ->; discriminate Hz
           | exact Hp
           | rewrite Hn; exact Hu
           | ]
       end.
  - intros _; eexists; reflexivity.
  - simpl; discriminate.
Qed.


End RouteFacts.

Lemma demo_POST_run :
  demo_POST (Some []) = Some (demo_response, demo_calls).
Proof. vm_compute; reflexivity. Qed.



(** * Further properties *)

(** ** The fixed-width chunker, chunk by chunk *)

Lemma ceil_div_tight (a b : Z) : 0 < b -> (ceil_div a b - 1) * b < a.
Proof.
  intros Hb; unfold ceil_div.
  pose proof (Z.mul_div_le (a + b - 1) b Hb). nia.
Qed.

Lemma ceil_div_nonneg (a b : Z) : 0 < b -> 0 <= a -> 0 <= ceil_div a b.
Proof.
  intros Hb Ha; unfold ceil_div. apply Z.div_pos; lia.
Qed.

(** Past the two guards [chunkText] is its loop from cursor 0. *)
Lemma chunkText_long (fuel : nat) (text : jsstring) (chunkSize overlap : Z) :
  (exists c, In c text /\ is_whitespace c = false) ->
  chunkSize < len text ->
  chunkText fuel text chunkSize overlap
  = chunkText_loop fuel text chunkSize overlap 0 [].
Proof.
  intros Hvis Hlong; unfold chunkText.
  apply blank_false_iff in Hvis; rewrite Hvis.
  destruct (len text <=? chunkSize) eqn:E; [|reflexivity].
  apply Z.leb_le in E; lia.
Qed.

Section FixedWidthExact.

Variable text : jsstring.
Variables chunkSize overlap : Z.

Local Abbreviation step := (chunkSize - overlap).

Hypothesis overlap_nonneg : 0 <= overlap.
Hypothesis step_pos : 0 < step.

(** From the cursor [k * step], with [m] turns to go before the one that
    reaches the end of the text, the loop adds the chunks of index [k] to
    [k + m]. *)
Lemma chunkText_loop_exact (m : nat) : forall k fuel chunks,
  (S m <= fuel)%nat ->
  Z.of_nat k * step < len text ->
  (forall j, (j < m)%nat ->
     Z.of_nat (k + j) * step + chunkSize < len text) ->
  len text <= Z.of_nat (k + m) * step + chunkSize ->
  chunkText_loop fuel text chunkSize overlap (Z.of_nat k * step) chunks
  = Some (chunks ++ map (chunk_at text chunkSize step) (seq k (S m))).
Proof.
  induction m as [|m IH]; intros k fuel acc Hfuel Hk Hbefore Hlast;
    (destruct fuel as [|fuel]; [lia|]).
  - rewrite Nat.add_0_r in Hlast.
    rewrite chunkText_loop_last by lia.
    simpl; unfold chunk_at.
    replace (Z.min (Z.of_nat k * step + chunkSize) (len text))
      with (len text) by lia.
    reflexivity.
  - assert (Hk0 : Z.of_nat k * step + chunkSize < len text).
    { specialize (Hbefore O); rewrite Nat.add_0_r in Hbefore.
      apply Hbefore; lia. }
    rewrite chunkText_loop_continue by lia.
    replace (Z.of_nat k * step + step) with (Z.of_nat (S k) * step) by lia.
    rewrite (IH (S k)).
    + rewrite <- app_assoc. do 2 f_equal.
      change (seq k (S (S m))) with (k :: seq (S k) (S m)).
      cbn [map app]. f_equal. unfold chunk_at.
      replace (Z.min (Z.of_nat k * step + chunkSize) (len text))
        with (Z.of_nat k * step + chunkSize) by lia.
      reflexivity.
    + lia.
    + lia.
    + intros j Hj. specialize (Hbefore (S j)).
      replace (S k + j)%nat with (k + S j)%nat by lia. apply Hbefore; lia.
    + replace (S k + m)%nat with (k + S m)%nat by lia. exact Hlast.
Qed.

(** The loop of a text longer than a chunk, in closed form. *)
Lemma chunkText_loop_closed_form (fuel : nat) :
  chunkSize < len text ->
  (chunk_count text chunkSize overlap <= fuel)%nat ->
  chunkText_loop fuel text chunkSize overlap 0 []
  = Some (map (chunk_at text chunkSize step)
            (seq 0 (chunk_count text chunkSize overlap))).
Proof.
  intros Hlong Hfuel; unfold chunk_count in *.
  set (m := Z.to_nat (ceil_div (len text - chunkSize) step)) in *.
  pose proof (ceil_div_nonneg (len text - chunkSize) step step_pos) as Hnn.
  pose proof (ceil_div_covers (len text - chunkSize) step step_pos) as Hcov.
  pose proof (ceil_div_tight (len text - chunkSize) step step_pos) as Htight.
  assert (Hm : Z.of_nat m = ceil_div (len text - chunkSize) step)
    by (subst m; rewrite Z2Nat.id; lia).
  change 0 with (Z.of_nat 0 * step) at 1.
  rewrite (chunkText_loop_exact m); [reflexivity | lia | lia | |].
  - intros j Hj; simpl.
    assert (Z.of_nat j * step <= (Z.of_nat m - 1) * step) by nia. lia.
  - simpl; lia.
Qed.

End FixedWidthExact.

Lemma nth_error_map_seq {A : Type} (f : nat -> A) (n : nat) :
  forall start i a,
    nth_error (map f (seq start n)) i = Some a ->
    (i < n)%nat /\ a = f (start + i)%nat.
Proof.
  induction n as [|n IH]; intros start i a H.
  - destruct i; discriminate.
  - destruct i as [|i]; simpl in H.
    + injection H as <-; rewrite Nat.add_0_r; split; [lia | reflexivity].
    + apply IH in H; destruct H as [Hi ->]; split; [lia|].
      f_equal; lia.
Qed.

(** Taking [k] units of a substring moves its right end. *)
Lemma substring_firstn (s : jsstring) (a b k : Z) :
  0 <= a -> 0 <= k -> a + k <= b -> b <= len s ->
  firstn (Z.to_nat k) (substring s a b) = substring s a (a + k).
Proof.
  intros Ha Hk Hab Hb.
  rewrite !substring_range by lia.
  rewrite firstn_firstn.
  f_equal; lia.
Qed.

(** X1.  For a text that is not blank and longer than [chunkSize], with
    [0 <= overlap < chunkSize], [chunkText] returns exactly
    [ceil((length - chunkSize) / step) + 1] chunks, and the chunk of index
    [k] is the range from [k * step] to [k * step + chunkSize], cut at the
    end of the text, where [step = chunkSize - overlap]. *)
Theorem chunkText_closed_form (fuel : nat) (text : jsstring)
    (chunkSize overlap : Z) :
  0 <= overlap < chunkSize ->
  (exists c, In c text /\ is_whitespace c = false) ->
  chunkSize < len text ->
  (chunk_count text chunkSize overlap <= fuel)%nat ->
  chunkText fuel text chunkSize overlap
  = Some (map (chunk_at text chunkSize (chunkSize - overlap))
            (seq 0 (chunk_count text chunkSize overlap))).
Proof.
  intros Ho Hvis Hlong Hfuel.
  rewrite chunkText_long by assumption.
  apply chunkText_loop_closed_form; lia.
Qed.

Lemma chunkText_closed_form_witness :
  chunkText 3 (str "abcdefghij") 4 1
  = Some (map (chunk_at (str "abcdefghij") 4 (4 - 1))
            (seq 0 (chunk_count (str "abcdefghij") 4 1))).
Proof.
  apply (chunkText_closed_form 3 (str "abcdefghij") 4 1).
  - lia.
  - exists 97%N; split; [left; reflexivity | reflexivity].
  - vm_compute; reflexivity.
  - vm_compute; lia.
Defined.

(** X2.  Under the same conditions every chunk of [chunkText] but the last
    has exactly [chunkSize] units, and the last one has more than
    [overlap] and at most [chunkSize]. *)
Theorem chunkText_chunk_sizes (fuel : nat) (text : jsstring)
    (chunkSize overlap : Z) :
  0 <= overlap < chunkSize ->
  (exists c, In c text /\ is_whitespace c = false) ->
  chunkSize < len text ->
  (chunk_count text chunkSize overlap <= fuel)%nat ->
  exists init last,
    chunkText fuel text chunkSize overlap = Some (init ++ [last])
    /\ Forall (fun chunk => len chunk = chunkSize) init
    /\ overlap < len last <= chunkSize.
Proof.
  intros Ho Hvis Hlong Hfuel.
  rewrite chunkText_long by assumption.
  rewrite chunkText_loop_closed_form by lia.
  unfold chunk_count.
  set (step := chunkSize - overlap).
  set (m := Z.to_nat (ceil_div (len text - chunkSize) step)).
  assert (Hstep : 0 < step) by (subst step; lia).
  pose proof (ceil_div_nonneg (len text - chunkSize) step Hstep) as Hnn.
  pose proof (ceil_div_covers (len text - chunkSize) step Hstep) as Hcov.
  pose proof (ceil_div_tight (len text - chunkSize) step Hstep) as Htight.
  assert (Hm : Z.of_nat m = ceil_div (len text - chunkSize) step)
    by (subst m; rewrite Z2Nat.id; lia).
  exists (map (chunk_at text chunkSize step) (seq 0 m)),
         (chunk_at text chunkSize step m).
  split; [|split].
  - rewrite seq_S, map_app; reflexivity.
  - apply Forall_forall; intros chunk Hin.
    apply in_map_iff in Hin; destruct Hin as [k [<- Hk]].
    apply in_seq in Hk. unfold chunk_at.
    assert (Z.of_nat k * step <= (Z.of_nat m - 1) * step) by nia.
    replace (Z.min (Z.of_nat k * step + chunkSize) (len text))
      with (Z.of_nat k * step + chunkSize) by lia.
    rewrite substring_len; nia.
  - unfold chunk_at.
    replace (Z.min (Z.of_nat m * step + chunkSize) (len text))
      with (len text) by lia.
    rewrite substring_len; subst step; nia.
Qed.

Lemma chunkText_chunk_sizes_witness :
  exists init last,
    chunkText 3 (str "abcdefghij") 4 1 = Some (init ++ [last])
    /\ Forall (fun chunk => len chunk = 4) init
    /\ 1 < len last <= 4.
Proof.
  apply (chunkText_chunk_sizes 3 (str "abcdefghij") 4 1).
  - lia.
  - exists 97%N; split; [left; reflexivity | reflexivity].
  - vm_compute; reflexivity.
  - vm_compute; lia.
Defined.

(** X3.  Under the same conditions two consecutive chunks of [chunkText]
    share [overlap] units: what is left of a chunk after its first [step]
    units is the first [overlap] units of the next chunk. *)
Theorem chunkText_consecutive_overlap (fuel : nat) (text : jsstring)
    (chunkSize overlap : Z) :
  0 <= overlap < chunkSize ->
  (exists c, In c text /\ is_whitespace c = false) ->
  chunkSize < len text ->
  (chunk_count text chunkSize overlap <= fuel)%nat ->
  exists chunks,
    chunkText fuel text chunkSize overlap = Some chunks
    /\ forall i this next,
         nth_error chunks i = Some this ->
         nth_error chunks (S i) = Some next ->
         skipn (Z.to_nat (chunkSize - overlap)) this
         = firstn (Z.to_nat overlap) next.
Proof.
  intros Ho Hvis Hlong Hfuel.
  rewrite chunkText_long by assumption.
  rewrite chunkText_loop_closed_form by lia.
  eexists; split; [reflexivity|].
  intros i this next Hthis Hnext.
  apply nth_error_map_seq in Hthis, Hnext.
  destruct Hthis as [_ ->]; destruct Hnext as [Hi ->].
  unfold chunk_count in Hi; simpl Nat.add.
  set (step := chunkSize - overlap) in *.
  assert (Hstep : 0 < step) by (subst step; lia).
  pose proof (ceil_div_nonneg (len text - chunkSize) step Hstep) as Hnn.
  pose proof (ceil_div_tight (len text - chunkSize) step Hstep) as Htight.
  assert (Hlt : Z.of_nat i * step + chunkSize < len text).
  { assert (Z.of_nat i * step <=
            (ceil_div (len text - chunkSize) step - 1) * step) by nia.
    lia. }
  unfold chunk_at.
  replace (Z.min (Z.of_nat i * step + chunkSize) (len text))
    with (Z.of_nat i * step + chunkSize) by lia.
  rewrite substring_skipn by nia.
  rewrite substring_firstn by (subst step; nia).
  f_equal; subst step; nia.
Qed.

Lemma chunkText_consecutive_overlap_witness :
  exists chunks,
    chunkText 3 (str "abcdefghij") 4 1 = Some chunks
    /\ forall i this next,
         nth_error chunks i = Some this ->
         nth_error chunks (S i) = Some next ->
         skipn (Z.to_nat (4 - 1)) this = firstn (Z.to_nat 1) next.
Proof.
  apply (chunkText_consecutive_overlap 3 (str "abcdefghij") 4 1).
  - lia.
  - exists 97%N; split; [left; reflexivity | reflexivity].
  - vm_compute; reflexivity.
  - vm_compute; lia.
Defined.

(** ** Chunks are pieces of the text *)

Lemma substring_infix (s : jsstring) (a b : Z) : occurs (substring s a b) s.
Proof.
  unfold occurs, substring.
  set (lo := Z.to_nat (Z.min (clamp s a) (clamp s b))).
  set (n := Z.to_nat (Z.max (clamp s a) (clamp s b)
                      - Z.min (clamp s a) (clamp s b))).
  exists (firstn lo s), (skipn n (skipn lo s)).
  rewrite (firstn_skipn n (skipn lo s)).
  symmetry; apply firstn_skipn.
Qed.

(** [trim] removes white space at both ends, and nothing else. *)
Lemma trim_infix (s : jsstring) :
  exists before after,
    s = before ++ trim s ++ after
    /\ forallb is_whitespace before = true
    /\ forallb is_whitespace after = true.
Proof.
  destruct (trimStart_suffix s) as [p [Hs Hp]].
  destruct (trimStart_suffix (rev (trimStart s))) as [q [Ht Hq]].
  exists p, (rev q); repeat split.
  - rewrite Hs at 1; f_equal.
    unfold trim, trimEnd.
    rewrite <- rev_app_distr, <- Ht, rev_involutive; reflexivity.
  - exact Hp.
  - rewrite forallb_rev; exact Hq.
Qed.

Lemma occurs_trans (a b c : jsstring) : occurs a b -> occurs b c -> occurs a c.
Proof.
  intros [p [q ->]] [p' [q' ->]].
  exists (p' ++ p), (q ++ q'); rewrite <- !app_assoc; reflexivity.
Qed.

Lemma occurs_refl (a : jsstring) : occurs a a.
Proof. exists [], []; rewrite app_nil_r; reflexivity. Qed.

Lemma trim_occurs (s : jsstring) : occurs (trim s) s.
Proof.
  destruct (trim_infix s) as [p [q [Hs _]]]; exists p, q; exact Hs.
Qed.

Lemma len_trim_le (s : jsstring) : len (trim s) <= len s.
Proof.
  destruct (trim_infix s) as [p [q [Hs _]]].
  rewrite Hs at 2; rewrite !len_app.
  pose proof (len_nonneg p); pose proof (len_nonneg q); lia.
Qed.

Lemma chunkText_loop_pieces (text : jsstring) (chunkSize overlap : Z)
    (fuel : nat) : forall startIndex chunks res,
  Forall (fun chunk => occurs chunk text) chunks ->
  chunkText_loop fuel text chunkSize overlap startIndex chunks = Some res ->
  Forall (fun chunk => occurs chunk text) res.
Proof.
  induction fuel as [|fuel IH]; intros st acc res Hacc H.
  - simpl in H. destruct (st <? len text); [discriminate|].
    injection H as <-; exact Hacc.
  - destruct (Z_lt_ge_dec st (len text)) as [Hlt | Hge].
    + rewrite chunkText_loop_S in H by assumption. cbv zeta in H.
      assert (Hacc' : Forall (fun chunk => occurs chunk text)
                (acc ++ [substring text st
                           (Z.min (st + chunkSize) (len text))])).
      { apply Forall_app; split; [exact Hacc|].
        constructor; [apply substring_infix | constructor]. }
      destruct (Z.min (st + chunkSize) (len text) =? len text).
      * injection H as <-; exact Hacc'.
      * exact (IH _ _ _ Hacc' H).
    + rewrite chunkText_loop_exit in H by lia.
      injection H as <-; exact Hacc.
Qed.

Lemma chunkTextSmart_loop_pieces (text : jsstring) (chunkSize overlap : Z)
    (fuel : nat) : forall startIndex chunks res,
  Forall (fun chunk => occurs chunk text) chunks ->
  chunkTextSmart_loop fuel text chunkSize overlap startIndex chunks
  = Some res ->
  Forall (fun chunk => occurs chunk text) res.
Proof.
  induction fuel as [|fuel IH]; intros st acc res Hacc H.
  - simpl in H. destruct (st <? len text); [discriminate|].
    injection H as <-; exact Hacc.
  - destruct (Z_lt_ge_dec st (len text)) as [Hlt | Hge].
    + rewrite chunkTextSmart_loop_S in H by assumption. cbv zeta in H.
      set (chunk := trim (substring text st
                            (smartEnd text chunkSize st))) in *.
      assert (Hacc' : Forall (fun chunk => occurs chunk text)
                (if len chunk >? 0 then acc ++ [chunk] else acc)).
      { destruct (len chunk >? 0); [|exact Hacc].
        apply Forall_app; split; [exact Hacc|].
        constructor; [|constructor].
        eapply occurs_trans; [apply trim_occurs | apply substring_infix]. }
      destruct (smartEnd text chunkSize st =? len text).
      * injection H as <-; exact Hacc'.
      * exact (IH _ _ _ Hacc' H).
    + rewrite chunkTextSmart_loop_exit in H by lia.
      injection H as <-; exact Hacc.
Qed.

(** X4.  Whatever the parameters, every chunk that [chunkText] or
    [chunkTextSmart] returns is a contiguous piece of the text: neither
    chunker adds, reorders or alters a unit. *)
Theorem chunkers_return_pieces (fuel : nat) (text : jsstring)
    (chunkSize overlap : Z) (chunks : list jsstring) :
  chunkText fuel text chunkSize overlap = Some chunks
  \/ chunkTextSmart fuel text chunkSize overlap = Some chunks ->
  Forall (fun chunk => occurs chunk text) chunks.
Proof.
  unfold chunkText, chunkTextSmart.
  destruct (blank text).
  - intros [H | H]; injection H as <-; constructor.
  - destruct (len text <=? chunkSize).
    + intros [H | H]; injection H as <-;
        (constructor; [apply occurs_refl | constructor]).
    + intros [H | H].
      * eapply chunkText_loop_pieces; [constructor | exact H].
      * eapply chunkTextSmart_loop_pieces; [constructor | exact H].
Qed.

Lemma chunkers_return_pieces_witness :
  Forall (fun chunk => occurs chunk gap_text) [str "abcdefgh."; str "tail"].
Proof.
  apply (chunkers_return_pieces 3 gap_text 10 0).
  right; vm_compute; reflexivity.
Defined.

(** ** The boundary-aware chunker *)

Lemma trimStart_fixed (s : jsstring) :
  (forall c r, s = c :: r -> is_whitespace c = false) -> trimStart s = s.
Proof.
  destruct s as [|c r]; intros H; simpl; [reflexivity|].
  rewrite (H c r eq_refl); reflexivity.
Qed.

Lemma trimStart_idem (s : jsstring) : trimStart (trimStart s) = trimStart s.
Proof.
  apply trimStart_fixed; intros c r H; exact (trimStart_head _ _ _ H).
Qed.

(** Trimming twice is trimming once. *)
Lemma trim_idem (s : jsstring) : trim (trim s) = trim s.
Proof.
  unfold trim, trimEnd.
  set (t := trimStart s).
  set (u := trimStart (rev t)).
  destruct (trimStart_suffix (rev t)) as [q [Ht _]]; fold u in Ht.
  assert (Hrev : t = rev u ++ rev q).
  { rewrite <- rev_app_distr, <- Ht, rev_involutive; reflexivity. }
  assert (Hfix : trimStart (rev u) = rev u).
  { apply trimStart_fixed; intros c r Hc.
    rewrite Hc in Hrev; simpl in Hrev.
    exact (trimStart_head s _ c Hrev). }
  rewrite Hfix, rev_involutive.
  unfold u; rewrite trimStart_idem; reflexivity.
Qed.

Lemma chunkTextSmart_long (fuel : nat) (text : jsstring)
    (chunkSize overlap : Z) :
  (exists c, In c text /\ is_whitespace c = false) ->
  chunkSize < len text ->
  chunkTextSmart fuel text chunkSize overlap
  = chunkTextSmart_loop fuel text chunkSize overlap 0 [].
Proof.
  intros Hvis Hlong; unfold chunkTextSmart.
  apply blank_false_iff in Hvis; rewrite Hvis.
  destruct (len text <=? chunkSize) eqn:E; [|reflexivity].
  apply Z.leb_le in E; lia.
Qed.

Section BoundaryAwareMore.

Variable text : jsstring.
Variables chunkSize overlap : Z.

(** A property that [trim] of any string has holds of every chunk the loop
    adds. *)
Lemma chunkTextSmart_loop_trimmed (P : jsstring -> Prop) (fuel : nat) :
  (forall s, P (trim s)) ->
  forall startIndex chunks res,
    Forall P chunks ->
    chunkTextSmart_loop fuel text chunkSize overlap startIndex chunks
    = Some res ->
    Forall P res.
Proof.
  intros HP; induction fuel as [|fuel IH]; intros st acc res Hacc H.
  - simpl in H. destruct (st <? len text); [discriminate|].
    injection H as <-; exact Hacc.
  - destruct (Z_lt_ge_dec st (len text)) as [Hlt | Hge].
    + rewrite chunkTextSmart_loop_S in H by assumption. cbv zeta in H.
      set (chunk := trim (substring text st
                            (smartEnd text chunkSize st))) in *.
      assert (Hacc' : Forall P
                (if len chunk >? 0 then acc ++ [chunk] else acc)).
      { destruct (len chunk >? 0); [|exact Hacc].
        apply Forall_app; split; [exact Hacc|].
        constructor; [apply HP | constructor]. }
      destruct (smartEnd text chunkSize st =? len text).
      * injection H as <-; exact Hacc'.
      * exact (IH _ _ _ Hacc' H).
    + rewrite chunkTextSmart_loop_exit in H by lia.
      injection H as <-; exact Hacc.
Qed.

(** With a cursor that is not negative a chunk is no longer than
    [chunkSize], and under the progress condition the cursor stays so. *)
Lemma chunkTextSmart_loop_sizes (fuel : nat) : forall startIndex chunks res,
  0 < chunkSize -> 0 <= overlap ->
  overlap + floor_fifth chunkSize < chunkSize ->
  0 <= startIndex ->
  Forall (fun chunk => len chunk <= chunkSize) chunks ->
  chunkTextSmart_loop fuel text chunkSize overlap startIndex chunks
  = Some res ->
  Forall (fun chunk => len chunk <= chunkSize) res.
Proof.
  induction fuel as [|fuel IH]; intros st acc res Hc Ho Hw Hst Hacc H.
  - simpl in H. destruct (st <? len text); [discriminate|].
    injection H as <-; exact Hacc.
  - destruct (Z_lt_ge_dec st (len text)) as [Hlt | Hge].
    + rewrite chunkTextSmart_loop_S in H by assumption. cbv zeta in H.
      assert (Hw0 : 0 <= floor_fifth chunkSize)
        by (unfold floor_fifth; apply Z.div_pos; lia).
      assert (Hend : st < smartEnd text chunkSize st <= st + chunkSize
                     /\ smartEnd text chunkSize st <= len text
                     /\ (smartEnd text chunkSize st <> len text ->
                         st + 1 <= smartEnd text chunkSize st - overlap)).
      { destruct (smartEnd_cases text chunkSize st)
          as [[H1 H2] | [H1 [H2 | H2]]];
          [lia | lia | specialize (H2 ltac:(lia)); lia]. }
      set (chunk := trim (substring text st
                            (smartEnd text chunkSize st))) in *.
      assert (Hchunk : len chunk <= chunkSize).
      { subst chunk.
        pose proof (len_trim_le (substring text st
                                   (smartEnd text chunkSize st))).
        rewrite substring_len in *; lia. }
      assert (Hacc' : Forall (fun chunk => len chunk <= chunkSize)
                (if len chunk >? 0 then acc ++ [chunk] else acc)).
      { destruct (len chunk >? 0); [|exact Hacc].
        apply Forall_app; split; [exact Hacc|].
        constructor; [exact Hchunk | constructor]. }
      destruct (smartEnd text chunkSize st =? len text) eqn:E.
      * injection H as <-; exact Hacc'.
      * apply Z.eqb_neq in E.
        apply (IH _ _ _ Hc Ho Hw) in H; [exact H | lia | exact Hacc'].
    + rewrite chunkTextSmart_loop_exit in H by lia.
      injection H as <-; exact Hacc.
Qed.

(** A cursor to which the loop comes back is never left. *)
Lemma chunkTextSmart_loop_stuck (fuel : nat) : forall startIndex chunks,
  startIndex < len text ->
  smartEnd text chunkSize startIndex <> len text ->
  smartEnd text chunkSize startIndex - overlap = startIndex ->
  chunkTextSmart_loop fuel text chunkSize overlap startIndex chunks = None.
Proof.
  induction fuel as [|fuel IH]; intros st acc Hlt Hne Hback.
  - simpl. destruct (st <? len text) eqn:E; [reflexivity|].
    apply Z.ltb_ge in E; lia.
  - rewrite chunkTextSmart_loop_S by assumption. cbv zeta.
    destruct (smartEnd text chunkSize st =? len text) eqn:E;
      [apply Z.eqb_eq in E; contradiction|].
    rewrite Hback. apply IH; assumption.
Qed.

End BoundaryAwareMore.

(** X5.  When the text is longer than [chunkSize], every chunk that
    [chunkTextSmart] returns is trimmed: trimming it again changes
    nothing. *)
Theorem chunkTextSmart_chunks_trimmed (fuel : nat) (text : jsstring)
    (chunkSize overlap : Z) (chunks : list jsstring) :
  chunkSize < len text ->
  chunkTextSmart fuel text chunkSize overlap = Some chunks ->
  Forall (fun chunk => trim chunk = chunk) chunks.
Proof.
  intros Hlong; unfold chunkTextSmart.
  destruct (blank text); [intros H; injection H as <-; constructor|].
  destruct (len text <=? chunkSize) eqn:E; [apply Z.leb_le in E; lia|].
  apply chunkTextSmart_loop_trimmed; [apply trim_idem | constructor].
Qed.

Lemma chunkTextSmart_chunks_trimmed_witness :
  Forall (fun chunk => trim chunk = chunk) [str "abcdefgh."; str "tail"].
Proof.
  apply (chunkTextSmart_chunks_trimmed 3 gap_text 10 0).
  - vm_compute; reflexivity.
  - vm_compute; reflexivity.
Defined.

(** X6.  With [0 < chunkSize], [0 <= overlap] and
    [overlap + floor(chunkSize * 0.2) < chunkSize], [chunkTextSmart]
    returns within [text.length] turns of its loop, at most [text.length]
    chunks, none of them longer than [chunkSize]. *)
Theorem chunkTextSmart_returns_bounded (fuel : nat) (text : jsstring)
    (chunkSize overlap : Z) :
  0 < chunkSize -> 0 <= overlap ->
  overlap + floor_fifth chunkSize < chunkSize ->
  (length text <= fuel)%nat ->
  exists chunks,
    chunkTextSmart fuel text chunkSize overlap = Some chunks
    /\ (length chunks <= length text)%nat
    /\ Forall (fun chunk => len chunk <= chunkSize) chunks.
Proof.
  intros Hc Ho Hw Hfuel.
  destruct (chunkTextSmart_terminates fuel text chunkSize overlap
              Hc Ho Hw Hfuel) as [chunks [Hrun Hcount]].
  exists chunks; repeat split; try assumption.
  revert Hrun; unfold chunkTextSmart.
  destruct (blank text); [intros H; injection H as <-; constructor|].
  destruct (len text <=? chunkSize) eqn:E.
  - apply Z.leb_le in E.
    intros H; injection H as <-; constructor; [exact E | constructor].
  - apply chunkTextSmart_loop_sizes; try assumption; [lia | constructor].
Qed.

Lemma chunkTextSmart_returns_bounded_witness :
  exists chunks,
    chunkTextSmart 24 gap_text 10 0 = Some chunks
    /\ (length chunks <= length gap_text)%nat
    /\ Forall (fun chunk => len chunk <= 10) chunks.
Proof.
  apply (chunkTextSmart_returns_bounded 24 gap_text 10 0).
  - lia.
  - lia.
  - vm_compute; reflexivity.
  - vm_compute; lia.
Defined.

(** X7.  [0 <= overlap < chunkSize] does not make [chunkTextSmart]
    terminate: when the text is not blank and longer than [chunkSize], and
    the first chunk is cut at [overlap] units (a boundary found early in
    the window, with a large overlap), the next cursor is 0 again and the
    loop never ends. *)
Theorem chunkTextSmart_stuck_at_start (text : jsstring)
    (chunkSize overlap : Z) :
  (exists c, In c text /\ is_whitespace c = false) ->
  chunkSize < len text ->
  smartEnd text chunkSize 0 = overlap ->
  overlap < len text ->
  forall fuel, chunkTextSmart fuel text chunkSize overlap = None.
Proof.
  intros Hvis Hlong Hend Hov fuel.
  rewrite chunkTextSmart_long by assumption.
  pose proof (visible_nonempty text Hvis).
  apply chunkTextSmart_loop_stuck; lia.
Qed.

Lemma chunkTextSmart_stuck_at_start_witness :
  0 <= 14 < 15
  /\ chunkTextSmart 1000 (str "aaaaaaaaaaaa. bbbbbbbb") 15 14 = None.
Proof.
  split; [lia|].
  refine (chunkTextSmart_stuck_at_start (str "aaaaaaaaaaaa. bbbbbbbb")
            15 14 _ _ _ _ 1000%nat).
  - exists 97%N; split; [left; reflexivity | reflexivity].
  - vm_compute; reflexivity.
  - vm_compute; reflexivity.
  - vm_compute; reflexivity.
Defined.

(** *** Where a chunk is cut *)

(** What the boundary loop finds is the end of the last occurrence of one
    of the markers. *)
Lemma boundary_steps_hit (searchText : jsstring) (endings : list jsstring) :
  incl endings sentenceEndings ->
  forall lastBoundary,
    (lastBoundary = -1
     \/ (0 <= lastBoundary
         /\ exists ending,
              In ending sentenceEndings
              /\ 0 <= lastIndexOf searchText ending
              /\ lastBoundary = lastIndexOf searchText ending + len ending)) ->
    fold_left (boundary_step searchText) endings lastBoundary = -1
    \/ (0 <= fold_left (boundary_step searchText) endings lastBoundary
        /\ exists ending,
             In ending sentenceEndings
             /\ 0 <= lastIndexOf searchText ending
             /\ fold_left (boundary_step searchText) endings lastBoundary
                = lastIndexOf searchText ending + len ending).
Proof.
  induction endings as [|ending endings IH]; intros Hincl lb Hlb;
    [exact Hlb|].
  simpl; apply IH; [intros e He; apply Hincl; right; exact He|].
  unfold boundary_step.
  destruct (lastIndexOf searchText ending >? lb) eqn:E; [|exact Hlb].
  apply Z.gtb_lt in E. right.
  pose proof (len_nonneg ending).
  assert (0 <= lastIndexOf searchText ending)
    by (destruct Hlb as [-> | [Hlb _]]; lia).
  split; [lia|].
  exists ending; repeat split; [apply Hincl; left; reflexivity | lia].
Qed.

Lemma findBoundary_hit (searchText : jsstring) :
  0 < findBoundary searchText ->
  exists ending,
    In ending sentenceEndings
    /\ 0 <= lastIndexOf searchText ending
    /\ findBoundary searchText = lastIndexOf searchText ending + len ending.
Proof.
  intros Hpos; unfold findBoundary in *.
  destruct (boundary_steps_hit searchText sentenceEndings
              (incl_refl _) (-1) (or_introl eq_refl)) as [H | [_ H]];
    [lia | exact H].
Qed.

(** The middle of a concatenation, as a substring. *)
Lemma substring_app_middle (before pat after : jsstring) :
  substring (before ++ pat ++ after) (len before) (len before + len pat)
  = pat.
Proof.
  pose proof (len_nonneg before); pose proof (len_nonneg pat).
  pose proof (len_nonneg after).
  rewrite substring_range by (rewrite ?len_app; lia).
  unfold len; rewrite Nat2Z.id.
  rewrite skipn_app, skipn_all, Nat.sub_diag; simpl.
  replace (Z.to_nat (Z.of_nat (length before) + Z.of_nat (length pat)
                     - Z.of_nat (length before)))
    with (length pat + 0)%nat by lia.
  rewrite firstn_app_2; simpl; apply app_nil_r.
Qed.

(** A substring of a substring. *)
Lemma substring_substring (s : jsstring) (a b x y : Z) :
  0 <= a <= b -> b <= len s -> 0 <= x <= y -> y <= b - a ->
  substring (substring s a b) x y = substring s (a + x) (a + y).
Proof.
  intros Hab Hb Hxy Hy.
  rewrite (substring_range (substring s a b))
    by (rewrite ?substring_len; lia).
  rewrite !substring_range by lia.
  rewrite skipn_firstn_comm, firstn_firstn, skipn_skipn.
  f_equal; [lia | f_equal; lia].
Qed.

(** X8.  For a chunk that is not the last one (cursor not negative,
    [0 < chunkSize], naive end inside the text): when none of the seven
    markers occurs in the search window the chunk ends at the naive end;
    when one does, the chunk ends inside the window right after a marker,
    that is, its last two units are a sentence ending. *)
Theorem smartEnd_at_sentence_ending (text : jsstring)
    (chunkSize startIndex : Z) :
  0 <= startIndex -> 0 < chunkSize -> startIndex + chunkSize < len text ->
  ((forall ending, In ending sentenceEndings ->
      ~ occurs ending (searchWindow text chunkSize startIndex)) ->
   smartEnd text chunkSize startIndex = startIndex + chunkSize)
  /\ ((exists ending, In ending sentenceEndings
         /\ occurs ending (searchWindow text chunkSize startIndex)) ->
      startIndex + chunkSize - floor_fifth chunkSize + 2
        <= smartEnd text chunkSize startIndex <= startIndex + chunkSize
      /\ exists ending,
           In ending sentenceEndings
           /\ substring text (smartEnd text chunkSize startIndex - 2)
                (smartEnd text chunkSize startIndex) = ending).
Proof.
  intros Hst Hc Hin.
  assert (Hw0 : 0 <= floor_fifth chunkSize)
    by (unfold floor_fifth; apply Z.div_pos; lia).
  assert (Hw1 : floor_fifth chunkSize <= chunkSize)
    by (unfold floor_fifth; apply Z.div_le_upper_bound; lia).
  assert (Hnaive : Z.min (startIndex + chunkSize) (len text)
                   = startIndex + chunkSize) by lia.
  split.
  - intros Hno.
    rewrite (smartEnd_no_marker text chunkSize startIndex); [exact Hnaive|].
    rewrite Hnaive; exact Hno.
  - intros [ending [Hending Hocc]].
    pose proof (findBoundary_some _ _ Hending Hocc) as Hpos.
    destruct (findBoundary_hit _ Hpos) as [hit [Hhit [Hat Hfound]]].
    assert (Hlen : len hit = 2).
    { pose proof sentenceEndings_len as HF.
      rewrite Forall_forall in HF; apply HF; exact Hhit. }
    destruct (lastIndexOf_last _ _ Hat) as [before [after [Hw [Hb _]]]].
    pose proof (lastIndexOf_range (searchWindow text chunkSize startIndex)
                  hit) as [Hm | Hr]; [lia|].
    assert (Hwlen : len (searchWindow text chunkSize startIndex)
                    = floor_fifth chunkSize)
      by (unfold searchWindow; rewrite substring_len; lia).
    assert (Hend : smartEnd text chunkSize startIndex
                   = startIndex + chunkSize - floor_fifth chunkSize
                     + findBoundary (searchWindow text chunkSize startIndex)).
    { unfold smartEnd; rewrite Hnaive.
      destruct (startIndex + chunkSize <? len text) eqn:E;
        [|apply Z.ltb_ge in E; lia].
      fold (searchWindow text chunkSize startIndex).
      destruct (findBoundary (searchWindow text chunkSize startIndex) >? 0)
        eqn:F; [reflexivity|].
      rewrite Z.gtb_ltb in F; apply Z.ltb_ge in F; lia. }
    rewrite Hend, Hfound, Hlen. split; [lia|].
    exists hit; split; [exact Hhit|].
    replace (startIndex + chunkSize - floor_fifth chunkSize
             + (lastIndexOf (searchWindow text chunkSize startIndex) hit + 2)
             - 2)
      with (startIndex + chunkSize - floor_fifth chunkSize
            + lastIndexOf (searchWindow text chunkSize startIndex) hit)
      by lia.
    rewrite <- (substring_substring text
                  (startIndex + chunkSize - floor_fifth chunkSize)
                  (startIndex + chunkSize)) by lia.
    fold (searchWindow text chunkSize startIndex).
    rewrite Hw at 1. rewrite <- Hb, <- Hlen.
    apply substring_app_middle.
Qed.

Lemma smartEnd_at_sentence_ending_witness :
  ((forall ending, In ending sentenceEndings ->
      ~ occurs ending (searchWindow paragraph_text 18 0)) ->
   smartEnd paragraph_text 18 0 = 0 + 18)
  /\ ((exists ending, In ending sentenceEndings
         /\ occurs ending (searchWindow paragraph_text 18 0)) ->
      0 + 18 - floor_fifth 18 + 2 <= smartEnd paragraph_text 18 0 <= 0 + 18
      /\ exists ending,
           In ending sentenceEndings
           /\ substring paragraph_text (smartEnd paragraph_text 18 0 - 2)
                (smartEnd paragraph_text 18 0) = ending).
Proof.
  apply (smartEnd_at_sentence_ending paragraph_text 18 0).
  - lia.
  - lia.
  - vm_compute; reflexivity.
Defined.

(** *** Without sentence endings *)

Lemma trimmed_nonempty_snoc (chunks : list jsstring) (chunk : jsstring) :
  trimmed_nonempty (chunks ++ [chunk])
  = if len (trim chunk) >? 0
    then trimmed_nonempty chunks ++ [trim chunk]
    else trimmed_nonempty chunks.
Proof.
  unfold trimmed_nonempty; rewrite map_app, filter_app; simpl.
  destruct (len (trim chunk) >? 0); [reflexivity | apply app_nil_r].
Qed.

(** On a text without markers the two loops run in step. *)
Lemma chunkTextSmart_loop_plain (text : jsstring) (chunkSize overlap : Z)
    (fuel : nat) :
  (forall ending, In ending sentenceEndings -> ~ occurs ending text) ->
  forall startIndex chunks,
    chunkTextSmart_loop fuel text chunkSize overlap startIndex
      (trimmed_nonempty chunks)
    = option_map trimmed_nonempty
        (chunkText_loop fuel text chunkSize overlap startIndex chunks).
Proof.
  intros Hno; induction fuel as [|fuel IH]; intros st acc.
  - simpl. destruct (st <? len text); reflexivity.
  - destruct (Z_lt_ge_dec st (len text)) as [Hlt | Hge].
    + rewrite chunkTextSmart_loop_S, chunkText_loop_S by assumption.
      cbv zeta.
      assert (Hend : smartEnd text chunkSize st
                     = Z.min (st + chunkSize) (len text)).
      { apply smartEnd_no_marker. intros ending Hin Hocc.
        apply (Hno ending Hin).
        eapply occurs_trans; [exact Hocc | apply substring_infix]. }
      rewrite Hend, <- trimmed_nonempty_snoc.
      destruct (Z.min (st + chunkSize) (len text) =? len text) eqn:E;
        [reflexivity|].
      apply Z.eqb_neq in E.
      replace (Z.min (st + chunkSize) (len text) - overlap)
        with (st + (chunkSize - overlap)) by lia.
      apply IH.
    + rewrite chunkTextSmart_loop_exit, chunkText_loop_exit by lia.
      reflexivity.
Qed.

(** X9.  On a text longer than [chunkSize] in which none of the seven
    markers occurs, [chunkTextSmart] is [chunkText] followed by trimming
    every chunk and dropping the empty ones -- for all parameters, and
    also when neither returns. *)
Theorem chunkTextSmart_without_markers (fuel : nat) (text : jsstring)
    (chunkSize overlap : Z) :
  chunkSize < len text ->
  (forall ending, In ending sentenceEndings -> ~ occurs ending text) ->
  chunkTextSmart fuel text chunkSize overlap
  = option_map trimmed_nonempty (chunkText fuel text chunkSize overlap).
Proof.
  intros Hlong Hno; unfold chunkTextSmart, chunkText.
  destruct (blank text); [reflexivity|].
  destruct (len text <=? chunkSize) eqn:E; [apply Z.leb_le in E; lia|].
  apply (chunkTextSmart_loop_plain text chunkSize overlap fuel Hno 0 []).
Qed.

Lemma chunkTextSmart_without_markers_witness :
  chunkTextSmart 5 (str "one two three four five") 8 2
  = option_map trimmed_nonempty
      (chunkText 5 (str "one two three four five") 8 2).
Proof.
  apply (chunkTextSmart_without_markers 5 (str "one two three four five") 8 2).
  - vm_compute; reflexivity.
  - intros ending Hin; apply lastIndexOf_none_iff.
    repeat (destruct Hin as [<- | Hin]; [vm_compute; reflexivity|]).
    destruct Hin.
Defined.

(** ** The embedding client *)

Lemma startsWith_app (prefix rest : jsstring) :
  startsWith (prefix ++ rest) prefix = true.
Proof. apply startsWith_iff; exists rest; reflexivity. Qed.

Lemma replaceNewlines_no_LF (input : jsstring) :
  ~ In LF (replaceNewlines input).
Proof.
  unfold replaceNewlines; intros H.
  apply in_map_iff in H; destruct H as [c [Hc _]].
  destruct (N.eqb c LF) eqn:E; [discriminate|].
  apply N.eqb_neq in E; congruence.
Qed.

(** The body the two clients share meets the contract. *)
Lemma embedding_body_contract (Embedding : Type)
    (createEmbedding : EmbeddingRequest -> Promise (EmbeddingResult Embedding))
    (request : EmbeddingRequest) :
  embedding_contract createEmbedding request
    match createEmbedding request with
    | Rejected e =>
        Rejected (str "Error calling OpenAI embedding API: " ++ e)
    | Resolved result =>
        match data result with
        | Some (first :: _) => Resolved (embedding first)
        | _ =>
            Rejected (str "Error calling OpenAI embedding API: "
                      ++ errorToString
                           (str "Invalid response from OpenAI API: "
                            ++ stringified result))
        end
    end.
Proof.
  unfold embedding_contract.
  destruct (createEmbedding request) as [result | thrown] eqn:Hcall.
  - assert (Hbad : forall m,
      Rejected (A := Embedding)
        (str "Error calling OpenAI embedding API: "
         ++ errorToString (str "Invalid response from OpenAI API: "
                           ++ stringified result)) = Rejected m ->
      startsWith m (str "Error calling OpenAI embedding API: ") = true
      /\ (forall r, Resolved result = Resolved r ->
            m = str "Error calling OpenAI embedding API: "
                ++ str "Error: Invalid response from OpenAI API: "
                ++ stringified r)).
    { intros m H; injection H as <-; split.
      - exact (startsWith_app
                 (str "Error calling OpenAI embedding API: ") _).
      - intros r Hr; injection Hr as <-.
        reflexivity. }
    destruct (data result) as [[|first rest] |] eqn:Hdata.
    + split; [|exact Hbad].
      intros e; split; [discriminate|].
      intros [r [f [t [Hr [Hd _]]]]]; congruence.
    + split; [|intros m H; discriminate].
      intros e; split.
      * intros H; injection H as <-.
        exists result, first, rest; repeat split; assumption.
      * intros [r [f [t [Hr [Hd ->]]]]].
        injection Hr as <-; rewrite Hdata in Hd; injection Hd as <- <-.
        reflexivity.
    + split; [|exact Hbad].
      intros e; split; [discriminate|].
      intros [r [f [t [Hr [Hd _]]]]]; congruence.
  - split.
    + intros e; split; [discriminate|].
      intros [r [f [t [Hr _]]]]; discriminate.
    + intros m H; injection H as <-; split.
      * exact (startsWith_app
                 (str "Error calling OpenAI embedding API: ") _).
      * intros r Hr; discriminate.
Qed.


(** ** File checks, in the browser and on the server *)

Lemma ascii_lower_idem (c : codeunit) :
  ascii_lower (ascii_lower c) = ascii_lower c.
Proof.
  unfold ascii_lower.
  destruct ((65 <=? c) && (c <=? 90))%N eqn:E; [|rewrite E; reflexivity].
  apply andb_true_iff in E; destruct E as [E1 E2].
  apply N.leb_le in E1, E2.
  destruct ((65 <=? c + 32) && (c + 32 <=? 90))%N eqn:F; [|reflexivity].
  apply andb_true_iff in F; destruct F as [_ F]; apply N.leb_le in F; lia.
Qed.

Lemma ascii_lower_range (c : codeunit) :
  (c < 128)%N -> (ascii_lower c < 128)%N.
Proof.
  unfold ascii_lower; intros H.
  destruct ((65 <=? c) && (c <=? 90))%N eqn:E; [|exact H].
  apply andb_true_iff in E; destruct E as [_ E]; apply N.leb_le in E; lia.
Qed.

Lemma ascii_lower_dot (c : codeunit) : ascii_lower c = DOT <-> c = DOT.
Proof.
  unfold ascii_lower, DOT.
  destruct ((65 <=? c) && (c <=? 90))%N eqn:E.
  - apply andb_true_iff in E; destruct E as [E1 E2].
    apply N.leb_le in E1, E2; split; lia.
  - reflexivity.
Qed.

Section FileChecks.

Variable toLowerCase : jsstring -> jsstring.

(** X11.  The check in the browser lets a file through exactly when its
    MIME type is [text/plain] or [text/markdown] or the server's
    [validateFileType] accepts its name, and the server's
    [validateFileSize] accepts its size: everything the server accepts
    passes the browser, and a file of an allowed MIME type passes the
    browser whatever its name. *)
Theorem validateFile_iff_server (name type : jsstring) (size : Z) :
  validateFile toLowerCase name type size = None <->
  (includes [str "text/plain"; str "text/markdown"] type = true
   \/ validateFileType toLowerCase name = true)
  /\ validateFileSize size 4 = true.
Proof.
  unfold validateFile, validateFileType, getFileExtension, validateFileSize.
  cbv zeta.
  assert (Hext : forall last,
    includes [str ".txt"; str ".md"] (str "." ++ toLowerCase last)
    = includes allowedExtensions (or_else (toLowerCase last) [])).
  { intros last; rewrite or_else_nil.
    unfold includes, allowedExtensions; simpl.
    rewrite !orb_false_r.
    f_equal; apply eq_true_iff_eq; rewrite !eqb_eq;
      (split; [intros H; injection H as ->; reflexivity
              | intros ->; reflexivity]). }
  assert (Hpop : pop (split DOT name) <> None).
  { unfold split. pose proof (split_from_nonempty DOT name []) as Hne.
    destruct (split_from DOT name []) as [|x l]; [contradiction|].
    clear Hne; revert x; induction l as [|y l IH]; intros x;
      [discriminate | apply (IH y)]. }
  destruct (pop (split DOT name)) as [last|]; [|contradiction].
  rewrite Hext.
  destruct (includes [str "text/plain"; str "text/markdown"] type);
    destruct (includes allowedExtensions (or_else (toLowerCase last) []));
    cbn [negb andb];
    (destruct (size >? 4 * 1024 * 1024) eqn:E;
     [ apply Z.gtb_lt in E | rewrite Z.gtb_ltb in E; apply Z.ltb_ge in E ]);
    (split;
     [ first [ discriminate
             | intros _; split; [tauto | apply Z.leb_le; lia] ]
     | intros [[H | H] Hs];
       first [ discriminate | reflexivity | apply Z.leb_le in Hs; lia ] ]).
Qed.

Hypothesis toLowerCase_ascii : forall s,
  Forall (fun c => (c < 128)%N) s -> toLowerCase s = map ascii_lower s.

(** X12.  [validateFileType] looks only at what follows the last dot, and
    not at its ASCII case: for an ASCII extension without a dot, the
    answer is the same for any other base name and for the lower-cased
    extension. *)
Theorem validateFileType_base_and_case (base base' ext : jsstring) :
  Forall (fun c => (c < 128)%N) ext -> ~ In DOT ext ->
  validateFileType toLowerCase (base ++ DOT :: ext)
  = validateFileType toLowerCase (base' ++ DOT :: map ascii_lower ext).
Proof.
  intros Hascii Hdot.
  assert (Hdot' : ~ In DOT (map ascii_lower ext)).
  { intros H; apply in_map_iff in H; destruct H as [c [Hc Hin]].
    apply (proj1 (ascii_lower_dot c)) in Hc.
    rewrite Hc in Hin; contradiction. }
  assert (Hascii' : Forall (fun c => (c < 128)%N) (map ascii_lower ext)).
  { apply Forall_map. eapply Forall_impl; [|exact Hascii].
    intros c; apply ascii_lower_range. }
  unfold validateFileType.
  rewrite !getFileExtension_spec.
  rewrite !spec_after_last_dot_some by assumption.
  rewrite !toLowerCase_ascii by assumption.
  rewrite map_map.
  f_equal. apply map_ext; intros c; symmetry; apply ascii_lower_idem.
Qed.

End FileChecks.

Lemma validateFileType_base_and_case_witness :
  validateFileType (map ascii_lower) (str "Notes" ++ DOT :: str "TXT")
  = validateFileType (map ascii_lower)
      (str "a.b" ++ DOT :: map ascii_lower (str "TXT")).
Proof.
  apply (validateFileType_base_and_case (map ascii_lower)).
  - intros s _; reflexivity.
  - repeat constructor.
  - intros [H | [H | [H | []]]]; discriminate.
Defined.

(** ** A text that is not blank yields a chunk *)

Lemma firstn_add {A : Type} (a b : nat) (l : list A) :
  firstn (a + b) l = firstn a l ++ firstn b (skipn a l).
Proof.
  revert l; induction a as [|a IH]; intros l; [reflexivity|].
  destruct l as [|x l]; simpl; [rewrite firstn_nil; reflexivity|].
  rewrite IH; reflexivity.
Qed.

Lemma forallb_firstn_le (f : codeunit -> bool) (l : jsstring) (m n : nat) :
  (m <= n)%nat ->
  forallb f (firstn n l) = true -> forallb f (firstn m l) = true.
Proof.
  intros Hmn H.
  replace n with (m + (n - m))%nat in H by lia.
  rewrite firstn_add, forallb_app in H.
  apply andb_true_iff in H; tauto.
Qed.

(** White space up to [a], and from [a] to [b]: white space up to [b]. *)
Lemma blank_prefix_extend (s : jsstring) (a b : Z) :
  forallb is_whitespace (firstn (Z.to_nat a) s) = true ->
  forallb is_whitespace (substring s a b) = true ->
  forallb is_whitespace (firstn (Z.to_nat b) s) = true.
Proof.
  intros Ha Hab.
  assert (Hclamp : forall i,
    firstn (Z.to_nat (clamp s i)) s = firstn (Z.to_nat i) s).
  { intros i; unfold clamp.
    destruct (Z_le_gt_dec i (len s)) as [Hi | Hi].
    - f_equal; lia.
    - rewrite !firstn_all2 by (unfold len in *; lia); reflexivity. }
  rewrite <- Hclamp in Ha |- *.
  unfold substring in Hab.
  set (ca := clamp s a) in *; set (cb := clamp s b) in *.
  assert (0 <= ca /\ 0 <= cb) by (subst ca cb; unfold clamp; lia).
  destruct (Z_le_gt_dec ca cb) as [Hle | Hgt].
  - replace (Z.min ca cb) with ca in Hab by lia.
    replace (Z.max ca cb) with cb in Hab by lia.
    replace (Z.to_nat cb) with (Z.to_nat ca + Z.to_nat (cb - ca))%nat by lia.
    rewrite firstn_add, forallb_app, Ha, Hab; reflexivity.
  - apply (forallb_firstn_le _ _ _ (Z.to_nat ca)); [lia | exact Ha].
Qed.

(** As long as no chunk has been added, the text before the cursor is
    white space. *)
Lemma chunkTextSmart_loop_nonempty (text : jsstring) (chunkSize overlap : Z)
    (fuel : nat) : forall startIndex chunks res,
  0 <= overlap ->
  chunks <> []
  \/ forallb is_whitespace (firstn (Z.to_nat startIndex) text) = true ->
  chunkTextSmart_loop fuel text chunkSize overlap startIndex chunks
  = Some res ->
  res <> [] \/ forallb is_whitespace text = true.
Proof.
  assert (Hdone : forall st (acc : list jsstring),
    len text <= st ->
    acc <> []
    \/ forallb is_whitespace (firstn (Z.to_nat st) text) = true ->
    acc <> [] \/ forallb is_whitespace text = true).
  { intros st acc Hst [H | H]; [left; exact H | right].
    rewrite firstn_all2 in H by (unfold len in *; lia); exact H. }
  induction fuel as [|fuel IH]; intros st acc res Ho Hinv H.
  - simpl in H. destruct (st <? len text) eqn:E; [discriminate|].
    apply Z.ltb_ge in E; injection H as <-. exact (Hdone st acc E Hinv).
  - destruct (Z_lt_ge_dec st (len text)) as [Hlt | Hge].
    + rewrite chunkTextSmart_loop_S in H by assumption. cbv zeta in H.
      set (e := smartEnd text chunkSize st) in *.
      set (chunk := trim (substring text st e)) in *.
      assert (Hinv' :
        (if len chunk >? 0 then acc ++ [chunk] else acc) <> []
        \/ forallb is_whitespace (firstn (Z.to_nat e) text) = true).
      { destruct (len chunk >? 0) eqn:E.
        - left; intros Hnil; apply app_eq_nil in Hnil.
          destruct Hnil as [_ Hnil]; discriminate.
        - destruct Hinv as [Hacc | Hblank]; [left; exact Hacc | right].
          apply (blank_prefix_extend text st e Hblank).
          apply trim_nil_iff, len_nil_iff.
          rewrite Z.gtb_ltb in E; apply Z.ltb_ge in E.
          pose proof (len_nonneg chunk); subst chunk; lia. }
      destruct (e =? len text) eqn:E.
      * apply Z.eqb_eq in E; injection H as <-.
        apply (Hdone e); [lia | exact Hinv'].
      * apply (IH _ _ _ Ho) in H; [exact H|].
        destruct Hinv' as [Hacc | Hblank]; [left; exact Hacc | right].
        apply (forallb_firstn_le _ _ _ (Z.to_nat e)); [lia | exact Hblank].
    + rewrite chunkTextSmart_loop_exit in H by lia. injection H as <-.
      exact (Hdone st acc ltac:(lia) Hinv).
Qed.

(** X13.  With [0 <= overlap], what [chunkTextSmart] returns for a text
    that is not blank is never the empty sequence: consecutive ranges
    leave no gap, so the range that holds a visible unit gives a chunk. *)
Theorem chunkTextSmart_nonempty (fuel : nat) (text : jsstring)
    (chunkSize overlap : Z) (chunks : list jsstring) :
  0 <= overlap ->
  (exists c, In c text /\ is_whitespace c = false) ->
  chunkTextSmart fuel text chunkSize overlap = Some chunks ->
  chunks <> [].
Proof.
  intros Ho Hvis; unfold chunkTextSmart.
  pose proof (proj2 (blank_false_iff text) Hvis) as Hb; rewrite Hb.
  destruct (len text <=? chunkSize).
  - intros H; injection H as <-; discriminate.
  - intros H.
    apply chunkTextSmart_loop_nonempty in H; [|exact Ho | right; reflexivity].
    destruct H as [H | H]; [exact H|].
    apply blank_true_iff in H; congruence.
Qed.

Lemma chunkTextSmart_nonempty_witness :
  [str "abcdefgh."; str "tail"] <> [].
Proof.
  apply (chunkTextSmart_nonempty 3 gap_text 10 0).
  - lia.
  - exists 97%N; split; [left; reflexivity | reflexivity].
  - vm_compute; reflexivity.
Defined.

(** ** More on the ingest route *)

(** *** Numbers in record ids *)

Lemma str_inj (a b : String.string) : str a = str b -> a = b.
Proof.
  revert b; induction a as [|x a IH]; intros [|y b] H;
    try discriminate; [reflexivity|].
  simpl in H; injection H as Hxy Hab.
  f_equal; [|apply IH; exact Hab].
  rewrite <- (Ascii.ascii_N_embedding x), <- (Ascii.ascii_N_embedding y).
  rewrite Hxy; reflexivity.
Qed.

Lemma numberToString_inj (a b : Z) :
  numberToString a = numberToString b -> a = b.
Proof.
  unfold numberToString; intros H; apply str_inj in H.
  apply DecimalZ.to_int_inj.
  pose proof (DecimalString.NilEmpty.isi (Z.to_int a)) as Ha.
  pose proof (DecimalString.NilEmpty.isi (Z.to_int b)) as Hb.
  rewrite H in Ha; congruence.
Qed.

Lemma string_of_uint_no_dash (d : Decimal.uint) :
  ~ In DASH (str (DecimalString.NilEmpty.string_of_uint d)).
Proof.
  induction d; simpl; intros H;
    try (destruct H as [H | H]; [discriminate H | exact (IHd H)]).
  exact H.
Qed.

(** The decimal form of a number that is not negative has no dash. *)
Lemma numberToString_no_dash (n : Z) :
  0 <= n -> ~ In DASH (numberToString n).
Proof.
  intros Hn; unfold numberToString.
  destruct n as [|p|p]; [| |lia]; apply string_of_uint_no_dash.
Qed.

(** What follows the last separator is determined by the whole. *)
Lemma last_segment_unique (sep : codeunit) (a a' b b' : jsstring) :
  ~ In sep b -> ~ In sep b' ->
  a ++ sep :: b = a' ++ sep :: b' -> b = b'.
Proof.
  intros Hb Hb' H.
  pose proof (pop_split_from_last sep a b Hb []) as H1.
  pose proof (pop_split_from_last sep a' b' Hb' []) as H2.
  rewrite H in H1; congruence.
Qed.

Section RouteMore.

Variable Buffer : Type.
Variable Embedding : Type.
Variable toLowerCase : jsstring -> jsstring.
Variable toString_utf8 : Buffer -> jsstring.
Variable getEmbeddings : jsstring -> Promise Embedding.
Variable Date_now : Z -> Z.
Variable Date_toISOString : Z -> jsstring.
Variable new_Pinecone : Promise unit.
Variable PINECONE_INDEX : option jsstring.
Variable upsert : UpsertCall Embedding -> Promise unit.

Local Abbreviation vectorsOf :=
  (makeVectors_from (Buffer := Buffer) (Embedding := Embedding)
     Date_now Date_toISOString).
Local Abbreviation run :=
  (POST toLowerCase toString_utf8 getEmbeddings Date_now
     Date_toISOString new_Pinecone PINECONE_INDEX upsert).

Lemma Promise_all_each (chunks : list jsstring) : forall embeddings,
  Promise_all getEmbeddings chunks = Resolved embeddings ->
  Forall (fun chunk => exists e, getEmbeddings chunk = Resolved e) chunks.
Proof.
  induction chunks as [|c chunks IH]; intros es H; simpl in H;
    [constructor|].
  destruct (getEmbeddings c) as [e|] eqn:E; [|discriminate].
  destruct (Promise_all getEmbeddings chunks) as [es'|]; [|discriminate].
  constructor; [exists e; exact E | apply (IH es'); reflexivity].
Qed.

Lemma makeVectors_from_same_length ns (file : FormidableFile Buffer) ext
    total (chunks : list jsstring) : forall index embeddings,
  length embeddings = length chunks ->
  length (vectorsOf ns file ext total index chunks embeddings)
  = length chunks.
Proof.
  induction chunks as [|c chunks IH]; intros index [|e es] Hlen;
    try discriminate; simpl; [reflexivity|].
  f_equal; apply IH; simpl in Hlen; lia.
Qed.

(** The records are numbered from [index] on, and all carry [total]. *)
Lemma makeVectors_from_numbering ns (file : FormidableFile Buffer) ext
    total (chunks : list jsstring) : forall index embeddings,
  length embeddings = length chunks ->
  let vectors := vectorsOf ns file ext total index chunks embeddings in
  map (fun v => chunkIndex (metadata v)) vectors
  = map (fun k => index + Z.of_nat k) (seq 0 (length chunks))
  /\ Forall (fun v => totalChunks (metadata v) = total) vectors.
Proof.
  induction chunks as [|c chunks IH]; intros index [|e es] Hlen;
    try discriminate; simpl.
  - split; [reflexivity | constructor].
  - destruct (IH (index + 1) es) as [Hidx Htot]; [simpl in Hlen; lia|].
    split; [|constructor; [reflexivity | exact Htot]].
    f_equal; [lia|].
    rewrite Hidx, <- seq_shift, map_map.
    apply map_ext; intros k; lia.
Qed.

(** The calls of the upsert loop, one by one: every batch holds between
    1 and 100 records; all calls but the last one were resolved, and the
    last one was not exactly when the loop stopped on its rejection; a
    loop that was not stopped made [ceil((n - i) / 100)] calls. *)
Lemma upsert_loop_outcomes ns (vectors : list (Vector Embedding)) fuel :
  forall i calls outcome calls',
    0 <= i ->
    -100 < Z.of_nat (length vectors) - i ->
    upsert_loop upsert fuel ns vectors i calls = Some (outcome, calls') ->
    exists new,
      calls' = calls ++ new
      /\ Forall (fun call => (1 <= length (batch call) <= 100)%nat) new
      /\ match outcome with
         | Resolved _ =>
             Forall (fun call => exists u, upsert call = Resolved u) new
             /\ Z.of_nat (length new)
                = ceil_div (Z.of_nat (length vectors) - i) 100
         | Rejected m =>
             exists before last,
               new = before ++ [last]
               /\ Forall (fun call => exists u, upsert call = Resolved u)
                    before
               /\ upsert last = Rejected m
         end.
Proof.
  assert (Hzero : forall i,
    Z.of_nat (length vectors) <= i ->
    -100 < Z.of_nat (length vectors) - i ->
    0 = ceil_div (Z.of_nat (length vectors) - i) 100).
  { intros i H1 H2; unfold ceil_div; symmetry.
    apply Z.div_small; lia. }
  induction fuel as [|fuel IH]; intros i calls outcome calls' Hi Hn H;
    simpl in H; destruct (i <? Z.of_nat (length vectors)) eqn:E;
    try discriminate.
  - apply Z.ltb_ge in E; injection H as <- <-.
    exists []; rewrite app_nil_r; repeat split; try constructor.
    simpl; apply Hzero; assumption.
  - apply Z.ltb_lt in E.
    set (call := {| target := or_else ns [];
                    batch := slice vectors i (i + batchSize) |}) in *.
    assert (Hsize : (1 <= length (batch call) <= 100)%nat).
    { subst call; unfold slice, batchSize; simpl.
      rewrite length_firstn, length_skipn; lia. }
    destruct (upsert call) as [u|m] eqn:U.
    + apply IH in H; [|unfold batchSize; lia | unfold batchSize; lia].
      destruct H as [new [-> [Hall Hout]]].
      exists (call :: new); rewrite <- app_assoc; repeat split;
        [constructor; assumption|].
      destruct outcome as [u'|m'].
      * destruct Hout as [Hres Hcount]; split.
        -- constructor; [exists u; exact U | exact Hres].
        -- simpl length; rewrite Nat2Z.inj_succ, Hcount.
           unfold ceil_div, batchSize.
           replace (Z.of_nat (length vectors) - i + 100 - 1)
             with (Z.of_nat (length vectors) - (i + 100) + 100 - 1
                   + 1 * 100) by lia.
           rewrite Z.div_add by lia. lia.
      * destruct Hout as [before [last [-> [Hres Hrej]]]].
        exists (call :: before), last; repeat split;
          [constructor; [exists u; exact U | exact Hres] | exact Hrej].
    + injection H as <- <-.
      exists [call]; repeat split; [constructor; [exact Hsize|constructor]|].
      exists [], call; repeat split; [constructor | exact U].
  - apply Z.ltb_ge in E; injection H as <- <-.
    exists []; rewrite app_nil_r; repeat split; try constructor.
    simpl; apply Hzero; assumption.
Qed.

(** The chunker gives the route at least one chunk. *)
Lemma chunkTextSmart_route_nonempty (fuel : nat) (content : jsstring)
    (chunks : list jsstring) :
  blank content = false ->
  chunkTextSmart fuel content 1000 200 = Some chunks ->
  chunks <> [].
Proof.
  intros Hb; unfold chunkTextSmart; rewrite Hb.
  destruct (len content <=? 1000).
  - intros H; injection H as <-; discriminate.
  - intros H.
    apply chunkTextSmart_loop_nonempty in H; [|lia | right; reflexivity].
    destruct H as [H | H]; [exact H|].
    apply blank_true_iff in H; congruence.
Qed.

(** Every way [POST] can answer.  Either no upsert was attempted and the
    answer is an error of status 400 or 500, or the upsert loop ran, after
    every check and every embedding had succeeded, and its outcome decides
    between the 200 and the 500 of the [catch] clause. *)
Lemma POST_cases fuel files fields_namespace resp calls :
  run fuel files fields_namespace = Some (resp, calls) ->
  (calls = []
   /\ (status resp = 400 \/ status resp = 500)
   /\ exists e, body resp = ErrorBody e
                /\ e <> str "Failed to process file content")
  \/ exists file rest chunks embeddings outcome,
       files = file :: rest
       /\ originalFilename file <> []
       /\ validateFileType toLowerCase (originalFilename file) = true
       /\ validateFileSize (size file) 4 = true
       /\ blank (toString_utf8 (buffer file)) = false
       /\ chunkTextSmart fuel (toString_utf8 (buffer file)) 1000 200
          = Some chunks
       /\ chunks <> []
       /\ Promise_all getEmbeddings chunks = Resolved embeddings
       /\ (exists u, new_Pinecone = Resolved u)
       /\ (exists n, PINECONE_INDEX = Some n /\ n <> [])
       /\ upsert_loop upsert fuel
            match fields_namespace with
            | Some n => or_else n []
            | None => []
            end
            (vectorsOf
               match fields_namespace with
               | Some n => or_else n []
               | None => []
               end file
               (getFileExtension toLowerCase (originalFilename file))
               (Z.of_nat (length chunks)) 0 chunks embeddings) 0 []
          = Some (outcome, calls)
       /\ resp = match outcome with
                 | Resolved _ =>
                     {| status := 200;
                        body := SuccessBody
                                  (str "File processed successfully")
                                  (originalFilename file)
                                  (Z.of_nat (length chunks))
                                  match fields_namespace with
                                  | Some n => or_else n []
                                  | None => []
                                  end |}
                 | Rejected m => caught m
                 end.
Proof.
  intros H. unfold POST in H.
  set (ns := match fields_namespace with
             | Some n => or_else n []
             | None => []
             end) in *.
  repeat match type of H with
         | context [match ?x with _ => _ end] => destruct x eqn:?
         end;
    try discriminate.
  all: try match goal with
           | Hx : (if JS.eqb _ _ then _ else _) = Resolved _ |- _ =>
               destruct (JS.eqb _ _) in Hx;
               [discriminate Hx | injection Hx as <-]
           end.
  all: unfold extractTextFromText in *.
  all: try match goal with
           | Hb : blank _ = false,
             Hc : chunkTextSmart _ _ _ _ = Some ?l,
             Hz : (Z.of_nat (length ?l) =? 0) = true |- _ =>
               exfalso; apply (chunkTextSmart_route_nonempty _ _ _ Hb Hc);
               apply Z.eqb_eq in Hz; destruct l; [reflexivity | discriminate]
           end.
  all: try (injection H as <- <-; left; split; [reflexivity|];
            split; [simpl; auto|];
            eexists; split; [reflexivity|];
            intros Hne; vm_compute in Hne; discriminate Hne).
  all: injection H as <- <-; right.
  all: match goal with
       | Hn : originalFilename ?f = _,
         Ht : negb (validateFileType _ _) = false,
         Hs : negb (validateFileSize _ _) = false,
         Hb : blank _ = false,
         Hc : chunkTextSmart _ _ _ _ = Some ?chunks,
         Hz : (Z.of_nat (length ?chunks) =? 0) = false,
         Hp : Promise_all _ _ = Resolved ?es,
         Hi : context [PINECONE_INDEX],
         Hu : upsert_loop _ _ _ _ _ _ = Some (?o, _) |- _ =>
           exists f; eexists; exists chunks, es, o;
           rewrite <- Hn in Ht, Hu;
           apply negb_false_iff in Ht, Hs;
           repeat split;
           first
             [ exact Ht | exact Hs | exact Hb | exact Hc | exact Hp
             | exact Hu
             | rewrite Hn; discriminate
             | rewrite Hn; reflexivity
             | intros ->; discriminate Hz
             | eexists; reflexivity
             | destruct PINECONE_INDEX as [n|]; [|discriminate Hi];
               exists n; split; [reflexivity|];
               intros ->; discriminate Hi ]
       end.
Qed.

(** The upsert loop of a run that got that far, from [i = 0]. *)
Lemma POST_loop_facts ns (file : FormidableFile Buffer) ext
    (chunks : list jsstring) embeddings fuel outcome calls :
  chunks <> [] ->
  Promise_all getEmbeddings chunks = Resolved embeddings ->
  upsert_loop upsert fuel ns
    (vectorsOf ns file ext (Z.of_nat (length chunks)) 0 chunks embeddings)
    0 [] = Some (outcome, calls) ->
  calls <> []
  /\ Forall (fun call => (1 <= length (batch call) <= 100)%nat) calls
  /\ match outcome with
     | Resolved _ =>
         Forall (fun call => exists u, upsert call = Resolved u) calls
         /\ Z.of_nat (length calls)
            = ceil_div (Z.of_nat (length chunks)) 100
         /\ concat (map batch calls)
            = vectorsOf ns file ext (Z.of_nat (length chunks)) 0 chunks
                embeddings
     | Rejected m =>
         exists before last,
           calls = before ++ [last]
           /\ Forall (fun call => exists u, upsert call = Resolved u) before
           /\ upsert last = Rejected m
     end.
Proof.
  intros Hne Hp Hu.
  apply Promise_all_length in Hp.
  pose proof (makeVectors_from_same_length ns file ext
                (Z.of_nat (length chunks)) chunks 0 embeddings Hp) as Hlen.
  assert (Hpos : (0 < length chunks)%nat)
    by (destruct chunks; [contradiction | simpl; lia]).
  pose proof Hu as Hu'.
  apply upsert_loop_outcomes in Hu; [|lia | lia].
  apply upsert_loop_calls in Hu'; [|lia].
  destruct Hu as [new [Hcalls [Hsizes Hout]]].
  destruct Hu' as [new' [Hcalls' [_ Hcat]]].
  simpl in Hcalls, Hcalls'; subst new new'.
  rewrite Hlen, Z.sub_0_r in Hout.
  split; [|split; [exact Hsizes|]].
  - destruct outcome as [u|m].
    + destruct Hout as [_ Hcount].
      pose proof (ceil_div_pos (Z.of_nat (length chunks)) 100).
      intros ->; simpl in Hcount; lia.
    + destruct Hout as [before [last [-> _]]].
      intros H; apply app_eq_nil in H; destruct H as [_ H]; discriminate.
  - destruct outcome as [u|m]; [|exact Hout].
    destruct Hout as [Hres Hcount]; repeat split; try assumption.
    apply Hcat; exists u; reflexivity.
Qed.

(** X15.  [POST] answers with status 200, 400 or 500.  The status is 200
    exactly when the body is the success body, and then at least one
    upsert call was made; a 400 is answered before any upsert; and the
    error ["Failed to process file content"] of line 305 is never
    answered, because the chunker gives a text that is not blank at least
    one chunk. *)
Theorem POST_response_shape fuel files fields_namespace resp calls :
  POST toLowerCase toString_utf8 getEmbeddings Date_now Date_toISOString
    new_Pinecone PINECONE_INDEX upsert fuel files fields_namespace = Some (resp, calls) ->
  (status resp = 200 \/ status resp = 400 \/ status resp = 500)
  /\ (status resp = 200 <->
      exists message name count ns,
        body resp = SuccessBody message name count ns)
  /\ (status resp = 200 -> calls <> [])
  /\ (status resp = 400 -> calls = [])
  /\ body resp <> ErrorBody (str "Failed to process file content").
Proof.
  intros H; apply POST_cases in H.
  destruct H as [[-> [Hst [e [He Hne]]]] | H].
  - repeat split.
    + tauto.
    + intros H200; destruct Hst; lia.
    + intros [m [f [n [ns H]]]]; congruence.
    + intros H200; destruct Hst; lia.
    + rewrite He; intros H; injection H as ->; contradiction.
  - destruct H as [file [rest [chunks [es [outcome
      [_ [_ [_ [_ [_ [_ [Hne [Hp [_ [_ [Hu ->]]]]]]]]]]]]]]]].
    apply POST_loop_facts in Hu; [|exact Hne | exact Hp].
    destruct Hu as [Hcalls _].
    destruct outcome as [u|m]; simpl; repeat split;
      try tauto; try discriminate; try lia;
      try (intros _; do 4 eexists; reflexivity);
      try (intros [mm [f [n [ns H]]]]; discriminate H).
Qed.

(** X16.  [POST] makes an upsert call only for a first file whose name is
    not empty and passes [validateFileType], whose size passes
    [validateFileSize], whose text is not blank, after the embedding of
    every one of its chunks was resolved, the client was constructed and
    the index name was found non-empty: a failed check or a failed
    embedding leaves the store untouched. *)
Theorem POST_upsert_requires fuel files fields_namespace resp calls :
  POST toLowerCase toString_utf8 getEmbeddings Date_now Date_toISOString
    new_Pinecone PINECONE_INDEX upsert fuel files fields_namespace = Some (resp, calls) ->
  calls <> [] ->
  exists file rest chunks,
    files = file :: rest
    /\ originalFilename file <> []
    /\ validateFileType toLowerCase (originalFilename file) = true
    /\ validateFileSize (size file) 4 = true
    /\ blank (toString_utf8 (buffer file)) = false
    /\ chunkTextSmart fuel (toString_utf8 (buffer file)) 1000 200
       = Some chunks
    /\ Forall (fun chunk => exists e, getEmbeddings chunk = Resolved e)
         chunks
    /\ (exists u, new_Pinecone = Resolved u)
    /\ (exists n, PINECONE_INDEX = Some n /\ n <> []).
Proof.
  intros H Hcalls; apply POST_cases in H.
  destruct H as [[-> _] | H]; [contradiction|].
  destruct H as [file [rest [chunks [es [outcome
    [Hf [Hn [Ht [Hs [Hb [Hc [_ [Hp [Hpc [Hidx _]]]]]]]]]]]]]]].
  exists file, rest, chunks; repeat split; try assumption.
  exact (Promise_all_each chunks es Hp).
Qed.


(** X18.  Every upsert call carries between 1 and 100 records; and when
    the answer is the success body with count [n], [ceil(n / 100)] calls
    were made and they carry [n] records in all. *)
Theorem POST_batches fuel files fields_namespace resp calls :
  POST toLowerCase toString_utf8 getEmbeddings Date_now Date_toISOString
    new_Pinecone PINECONE_INDEX upsert fuel files fields_namespace = Some (resp, calls) ->
  Forall (fun call => (1 <= length (batch call) <= 100)%nat) calls
  /\ forall message name count ns,
       body resp = SuccessBody message name count ns ->
       Z.of_nat (length calls) = ceil_div count 100
       /\ Z.of_nat (length (concat (map batch calls))) = count.
Proof.
  intros H; apply POST_cases in H.
  destruct H as [[-> [_ [e [He _]]]] | H].
  - split; [constructor|].
    intros m f n ns Hb; congruence.
  - destruct H as [file [rest [chunks [es [outcome
      [_ [_ [_ [_ [_ [_ [Hne [Hp [_ [_ [Hu ->]]]]]]]]]]]]]]]].
    pose proof (Promise_all_length _ _ _ _ Hp) as Hlen.
    apply POST_loop_facts in Hu; [|exact Hne | exact Hp].
    destruct Hu as [_ [Hsizes Hout]].
    split; [exact Hsizes|].
    intros m f n ns Hb.
    destruct outcome as [u|m']; [|discriminate Hb].
    injection Hb as _ _ <- _.
    destruct Hout as [_ [Hcount Hcat]].
    split; [exact Hcount|].
    rewrite Hcat, (makeVectors_from_same_length _ _ _ _ _ _ _ Hlen).
    reflexivity.
Qed.

(** X19.  On a 200 the records upserted are numbered in the order of the
    chunks: the record at position [k] has [chunkIndex = k], every record
    has [totalChunks] equal to the number of records, and that number is
    the [chunks] count of the response. *)
Theorem POST_record_numbering fuel files fields_namespace resp calls :
  POST toLowerCase toString_utf8 getEmbeddings Date_now Date_toISOString
    new_Pinecone PINECONE_INDEX upsert fuel files fields_namespace = Some (resp, calls) ->
  status resp = 200 ->
  let records := concat (map batch calls) in
  map (fun v => chunkIndex (metadata v)) records
  = map Z.of_nat (seq 0 (length records))
  /\ Forall (fun v => totalChunks (metadata v)
                      = Z.of_nat (length records)) records
  /\ exists message name ns,
       body resp
       = SuccessBody message name (Z.of_nat (length records)) ns.
Proof.
  intros H H200; apply POST_cases in H.
  destruct H as [[-> [Hst _]] | H]; [destruct Hst; lia|].
  destruct H as [file [rest [chunks [es [outcome
    [_ [_ [_ [_ [_ [_ [Hne [Hp [_ [_ [Hu ->]]]]]]]]]]]]]]]].
  pose proof (Promise_all_length _ _ _ _ Hp) as Hlen.
  apply POST_loop_facts in Hu; [|exact Hne | exact Hp].
  destruct Hu as [_ [_ Hout]].
  destruct outcome as [u|m]; [|discriminate H200].
  destruct Hout as [_ [_ Hcat]].
  cbv zeta; rewrite Hcat.
  rewrite (makeVectors_from_same_length _ _ _ _ _ _ _ Hlen).
  destruct (makeVectors_from_numbering
              match fields_namespace with
              | Some n => or_else n []
              | None => []
              end file
              (getFileExtension toLowerCase (originalFilename file))
              (Z.of_nat (length chunks)) chunks 0 es Hlen) as [Hidx Htot].
  split; [exact Hidx|].
  split; [exact Htot|].
  do 3 eexists; reflexivity.
Qed.

(** The id of a record names its index after its last dash. *)
Lemma makeVector_id_index ns (file : FormidableFile Buffer) ext total
    (k k' : Z) (c c' : jsstring) (e e' : Embedding) :
  0 <= k -> 0 <= k' ->
  id (makeVector Date_now Date_toISOString ns file ext total k c e)
  = id (makeVector Date_now Date_toISOString ns file ext total k' c' e') ->
  k = k'.
Proof.
  intros Hk Hk' H; simpl in H.
  apply app_inv_head in H. injection H as H.
  apply app_inv_head in H. injection H as H.
  apply numberToString_inj.
  apply (last_segment_unique DASH _ _ _ _
           (numberToString_no_dash k Hk) (numberToString_no_dash k' Hk') H).
Qed.

Lemma makeVectors_from_above ns (file : FormidableFile Buffer) ext total
    (chunks : list jsstring) : forall index embeddings,
  Forall (fun v => exists k c (e : Embedding),
            index <= k
            /\ v = makeVector Date_now Date_toISOString ns file ext total
                     k c e)
    (vectorsOf ns file ext total index chunks embeddings).
Proof.
  induction chunks as [|c chunks IH]; intros index [|e es]; simpl;
    try constructor.
  - exists index, c, e; split; [lia | reflexivity].
  - eapply Forall_impl; [|apply (IH (index + 1) es)].
    intros v [k [c' [e' [Hk ->]]]]; exists k, c', e'; split; [lia|].
    reflexivity.
Qed.

Lemma makeVectors_from_NoDup ns (file : FormidableFile Buffer) ext total
    (chunks : list jsstring) : forall index embeddings,
  0 <= index ->
  NoDup (map id (vectorsOf ns file ext total index chunks embeddings)).
Proof.
  induction chunks as [|c chunks IH]; intros index [|e es] Hi; simpl;
    try constructor.
  - intros Hin; apply in_map_iff in Hin; destruct Hin as [v [Hid Hv]].
    pose proof (makeVectors_from_above ns file ext total chunks
                  (index + 1) es) as Habove.
    rewrite Forall_forall in Habove.
    destruct (Habove v Hv) as [k [c' [e' [Hk ->]]]].
    apply (makeVector_id_index ns file ext total k index c' c e' e) in Hid;
      lia.
  - apply IH; lia.
Qed.


(** X21.  With a namespace field that is not empty, every upsert call
    targets that namespace, every record in it carries it in
    [metadata.namespace] and at the head of its [id], and the success
    body reports it. *)
Theorem POST_named_namespace fuel files ns resp calls :
  ns <> [] ->
  POST toLowerCase toString_utf8 getEmbeddings Date_now Date_toISOString
    new_Pinecone PINECONE_INDEX upsert fuel files (Some ns) = Some (resp, calls) ->
  Forall (fun call =>
            target call = ns
            /\ Forall (fun v => namespace (metadata v) = ns
                                /\ startsWith (id v) (ns ++ str "-") = true)
                 (batch call)) calls
  /\ (status resp = 200 ->
      exists message name count,
        body resp = SuccessBody message name count ns).
Proof.
  intros Hns H; apply POST_cases in H.
  assert (Hor : forall d, or_else ns d = ns)
    by (intros d; destruct ns; [contradiction | reflexivity]).
  rewrite !Hor in H.
  destruct H as [[-> [Hst _]] | H].
  - split; [constructor | intros H200; destruct Hst; lia].
  - destruct H as [file [rest [chunks [es [outcome
      [_ [_ [_ [_ [_ [_ [Hne [Hp [_ [_ [Hu ->]]]]]]]]]]]]]]]].
    pose proof (Promise_all_length _ _ _ _ Hp) as Hlen.
    destruct (makeVectors_from_metadata _ _ Date_now Date_toISOString
                ns file
                (getFileExtension toLowerCase (originalFilename file))
                (Z.of_nat (length chunks)) chunks 0 es Hlen)
      as [Hmeta _].
    pose proof (makeVectors_from_above ns file
                  (getFileExtension toLowerCase (originalFilename file))
                  (Z.of_nat (length chunks)) chunks 0 es) as Habove.
    apply upsert_loop_calls in Hu; [|lia].
    destruct Hu as [new [Hcalls [Hall _]]].
    simpl in Hcalls; subst new. split.
    + eapply Forall_impl; [|exact Hall].
      intros call [Ht Hincl]; rewrite Hor in Ht; split; [exact Ht|].
      rewrite Forall_forall in *; intros v Hv.
      apply Hincl in Hv. split.
      * rewrite (Hmeta v Hv); apply Hor.
      * destruct (Habove v Hv) as [k [c [e [_ ->]]]].
        cbn [id makeVector]; rewrite Hor.
        apply startsWith_iff; eexists.
        rewrite <- app_assoc; reflexivity.
    + intros H200; destruct outcome as [u|m]; [|discriminate H200].
      do 3 eexists; reflexivity.
Qed.

(** X22.  A first file whose extension is [pdf] is turned away by the
    type check with a 400 (whose message names PDF among the allowed
    types), before anything is extracted: the branch of [POST] that calls
    [extractTextFromPDF] is never taken. *)
Theorem POST_pdf_rejected fuel (file : FormidableFile Buffer) rest
    fields_namespace :
  originalFilename file <> [] ->
  getFileExtension toLowerCase (originalFilename file) = str "pdf" ->
  POST toLowerCase toString_utf8 getEmbeddings Date_now Date_toISOString
    new_Pinecone PINECONE_INDEX upsert fuel (file :: rest) fields_namespace
  = Some (json 400
            (str "Invalid file type. Only PDF, TXT, and MD files are allowed."),
          []).
Proof.
  intros Hname Hext; unfold POST.
  destruct (originalFilename file) as [|c name] eqn:E; [contradiction|].
  unfold validateFileType; rewrite Hext; reflexivity.
Qed.

End RouteMore.

(** *** The sample run, for the statements above *)

Lemma POST_returns_witness :
  exists result, demo_POST (Some []) = Some result.
Proof.
  apply (POST_returns jsstring unit (map ascii_lower) (fun b => b)
           (fun _ => Resolved tt) (fun _ => 0)
           (fun _ => str "1970-01-01T00:00:00.000Z")
           (Resolved tt) (Some (str "docs")) (fun _ => Resolved tt)
           11 demo_file [] (Some [])).
  vm_compute; lia.
Defined.

Lemma POST_response_shape_witness :
  (status demo_response = 200 \/ status demo_response = 400
   \/ status demo_response = 500)
  /\ (status demo_response = 200 <->
      exists message name count ns,
        body demo_response = SuccessBody message name count ns)
  /\ (status demo_response = 200 -> demo_calls <> [])
  /\ (status demo_response = 400 -> demo_calls = [])
  /\ body demo_response <> ErrorBody (str "Failed to process file content").
Proof.
  apply (POST_response_shape jsstring unit (map ascii_lower) (fun b => b)
           (fun _ => Resolved tt) (fun _ => 0)
           (fun _ => str "1970-01-01T00:00:00.000Z")
           (Resolved tt) (Some (str "docs")) (fun _ => Resolved tt)
           11 [demo_file] (Some []) demo_response demo_calls).
  vm_compute; reflexivity.
Defined.

Lemma POST_upsert_requires_witness :
  exists file rest chunks,
    [demo_file] = file :: rest
    /\ originalFilename file <> []
    /\ validateFileType (map ascii_lower) (originalFilename file) = true
    /\ validateFileSize (size file) 4 = true
    /\ blank (buffer file) = false
    /\ chunkTextSmart 11 (buffer file) 1000 200 = Some chunks
    /\ Forall (fun chunk => exists e : unit,
                 Resolved tt = Resolved e) chunks
    /\ (exists u, Resolved tt = Resolved u)
    /\ (exists n, Some (str "docs") = Some n /\ n <> []).
Proof.
  apply (POST_upsert_requires jsstring unit (map ascii_lower) (fun b => b)
           (fun _ => Resolved tt) (fun _ => 0)
           (fun _ => str "1970-01-01T00:00:00.000Z")
           (Resolved tt) (Some (str "docs")) (fun _ => Resolved tt)
           11 [demo_file] (Some []) demo_response demo_calls).
  - vm_compute; reflexivity.
  - discriminate.
Defined.


Lemma POST_batches_witness :
  Forall (fun call => (1 <= length (batch call) <= 100)%nat) demo_calls
  /\ forall message name count ns,
       body demo_response = SuccessBody message name count ns ->
       Z.of_nat (length demo_calls) = ceil_div count 100
       /\ Z.of_nat (length (concat (map batch demo_calls))) = count.
Proof.
  apply (POST_batches jsstring unit (map ascii_lower) (fun b => b)
           (fun _ => Resolved tt) (fun _ => 0)
           (fun _ => str "1970-01-01T00:00:00.000Z")
           (Resolved tt) (Some (str "docs")) (fun _ => Resolved tt)
           11 [demo_file] (Some []) demo_response demo_calls).
  vm_compute; reflexivity.
Defined.

Lemma POST_record_numbering_witness :
  map (fun v => chunkIndex (metadata v)) (concat (map batch demo_calls))
  = map Z.of_nat (seq 0 (length (concat (map batch demo_calls))))
  /\ Forall (fun v => totalChunks (metadata v)
                      = Z.of_nat (length (concat (map batch demo_calls))))
       (concat (map batch demo_calls))
  /\ exists message name ns,
       body demo_response
       = SuccessBody message name
           (Z.of_nat (length (concat (map batch demo_calls)))) ns.
Proof.
  apply (POST_record_numbering jsstring unit (map ascii_lower) (fun b => b)
           (fun _ => Resolved tt) (fun _ => 0)
           (fun _ => str "1970-01-01T00:00:00.000Z")
           (Resolved tt) (Some (str "docs")) (fun _ => Resolved tt)
           11 [demo_file] (Some []) demo_response demo_calls).
  - vm_compute; reflexivity.
  - reflexivity.
Defined.


Lemma POST_named_namespace_witness :
  Forall (fun call =>
            target call = str "team"
            /\ Forall (fun v => namespace (metadata v) = str "team"
                                /\ startsWith (id v) (str "team" ++ str "-")
                                   = true)
                 (batch call)) (snd demo_named_result)
  /\ (status (fst demo_named_result) = 200 ->
      exists message name count,
        body (fst demo_named_result)
        = SuccessBody message name count (str "team")).
Proof.
  apply (POST_named_namespace jsstring unit (map ascii_lower) (fun b => b)
           (fun _ => Resolved tt) (fun _ => 0)
           (fun _ => str "1970-01-01T00:00:00.000Z")
           (Resolved tt) (Some (str "docs")) (fun _ => Resolved tt)
           11 [demo_file] (str "team")
           (fst demo_named_result) (snd demo_named_result)).
  - discriminate.
  - vm_compute; reflexivity.
Defined.

Lemma POST_pdf_rejected_witness :
  POST (Embedding := unit) (map ascii_lower) (fun b => b)
    (fun _ => Resolved tt) (fun _ => 0)
    (fun _ => str "1970-01-01T00:00:00.000Z")
    (Resolved tt) (Some (str "docs")) (fun _ => Resolved tt)
    11 [demo_pdf] (Some [])
  = Some (json 400
            (str "Invalid file type. Only PDF, TXT, and MD files are allowed."),
          []).
Proof.
  apply (POST_pdf_rejected jsstring unit (map ascii_lower) (fun b => b)
           (fun _ => Resolved tt) (fun _ => 0)
           (fun _ => str "1970-01-01T00:00:00.000Z")
           (Resolved tt) (Some (str "docs")) (fun _ => Resolved tt)
           11 demo_pdf [] (Some [])).
  - discriminate.
  - vm_compute; reflexivity.
Defined.
